(** * HYDROLIB-core (pluggy proof of concept): file-backed models and the
      [.bui] precipitation format

    A shallow embedding of [hydrolib/core/basemodel.py] (the [FileModel]
    life cycle: load on construction, validation of a bare path, recursive
    save) and of the capabilities [BuiModel] declares in
    [hydrolib/core/io/bui/models.py], with the properties of the
    specification stated and proved over them.

    Python objects live in a store ([gmap nat obj]); a nested [FileModel]
    field holds a reference into it, so aliasing and reference cycles are
    expressible.  A dict is a [gmap string pval]; files on disk are a
    [gmap string string] from path text to contents. *)

From Stdlib Require Import ZArith String Ascii List Bool Lia.
From Stdlib Require Import DecimalString.
From stdpp Require Import base option list gmap strings.

Set Warnings "-register-all".
Local Open Scope string_scope.

(** ** Python values *)

(** [datetime.datetime] at second resolution. *)
Record datetime := DateTime {
  year : Z; month : Z; day : Z; hour : Z; minute : Z; second : Z
}.

(** The values that populate field mappings: [None], [int], [str],
    [pathlib.Path], [datetime], [timedelta] (as its total seconds), [list],
    [dict] and a plain (not file-backed) pydantic model with its fields in
    declaration order.  Python's [float] is not among them: no statement
    below is about a mapping that holds one. *)
Inductive pval :=
| PNone
| PInt (z : Z)
| PStr (s : string)
| PPath (p : string)
| PDateTime (d : datetime)
| PTimedelta (secs : Z)
| PList (l : list pval)
| PDict (m : gmap string pval)
| PModel (m : list (string * pval)).

(** The exceptions of the specification's taxonomy, and the two the
    interpreter itself raises in the modelled code. *)
Inductive error :=
| FormatError
| LoadError
| ValidationError
| CycleError
| RecursionError
| SerializeError
| DanglingReference.

Inductive result (A : Type) :=
| Ok (a : A)
| Err (e : error).
Arguments Ok {A} a.
Arguments Err {A} e.

Definition is_ok {A} (r : result A) : bool :=
  match r with Ok _ => true | Err _ => false end.

Definition rbind {A B} (r : result A) (f : A → result B) : result B :=
  match r with Ok a => f a | Err e => Err e end.

(** Python truthiness, as [if value:] tests it.  A [Path] defines neither
    [__bool__] nor [__len__], so every path is true. *)
Definition truthy (v : pval) : bool :=
  match v with
  | PNone => false
  | PInt z => negb (Z.eqb z 0)
  | PStr s => negb (String.eqb s "")
  | PPath _ => true
  | PDateTime _ => true
  | PTimedelta s => negb (Z.eqb s 0)
  | PList l => match l with [] => false | _ => true end
  | PDict m => negb (bool_decide (m = ∅))
  | PModel _ => true
  end.

(** [d.update(other)]: the entries of [other] replace those of [d]. *)
Definition dict_update (d other : gmap string pval) : gmap string pval :=
  other ∪ d.

(** ** Paths

    A path is its text, as [str(path)] prints it. *)

Definition is_absolute (p : string) : bool :=
  match p with
  | String "/" _ => true
  | _ => false
  end.

(** [a / b] of pathlib on POSIX. *)
Definition joinpath (a b : string) : string :=
  if is_absolute b then b
  else if String.eqb a "." then b
  else if String.eqb a "/" then "/" ++ b
  else a ++ "/" ++ b.

(** [path.absolute()], in the working directory [cwd]. *)
Definition absolute (cwd p : string) : string :=
  if is_absolute p then p else joinpath cwd p.

(** The ambient state a call reads: the working directory and the clock. *)
Record env := Env { cwd : string; now : datetime }.

(** Reading a file: the operating system resolves a relative path against
    the working directory.  The disk is keyed by absolute path text. *)
Definition read_text (e : env) (disk : gmap string string) (p : string)
    : option string :=
  disk !! absolute (cwd e) p.

(** ** The four capabilities of a concrete format

    [_filename], [_ext], [_get_parser] and [_get_serializer] of
    [FileModel].  The parser reads the disk; the serializer renders the text
    that is written to the location it is given, or raises ([None]); it
    may consult the wall clock of the environment. *)
Record FileModelClass := {
  _filename : string;
  _ext : string;
  _get_parser : env → gmap string string → pval → result (gmap string pval);
  _get_serializer : env → string → gmap string pval → option string
}.

(** [_generate_name]: [Path(f"{name}{ext}")]. *)
Definition _generate_name (c : FileModelClass) : string :=
  _filename c ++ _ext c.

(** [_parse] and [_load]. *)
Definition _parse (c : FileModelClass) (e : env) (disk : gmap string string)
    (path : pval) : result (gmap string pval) :=
  _get_parser c e disk path.

Definition _load (c : FileModelClass) (e : env) (disk : gmap string string)
    (filepath : pval) : result (gmap string pval) :=
  _parse c e disk filepath.

(** ** Construction: [FileModel.__init__]

    [init_kwargs] is the keyword mapping handed to [super().__init__]:
    with a true [filepath] the file is parsed, [data["filepath"] = filepath]
    and [kwargs.update(data)]; otherwise the explicit keywords alone. *)
Definition init_kwargs (c : FileModelClass) (e : env)
    (disk : gmap string string) (filepath : pval) (kwargs : gmap string pval)
    : result (gmap string pval) :=
  if truthy filepath then
    match _load c e disk filepath with
    | Ok data =>
        let data := <["filepath" := filepath]> data in
        Ok (dict_update kwargs data)
    | Err e => Err e
    end
  else Ok kwargs.

(** [pydantic_init] stands for [super().__init__], the validation and
    coercion of pydantic, which is not part of this repository. *)
Definition __init__ {E} (pydantic_init : gmap string pval → result E)
    (c : FileModelClass) (e : env) (disk : gmap string string)
    (filepath : pval) (kwargs : gmap string pval) : result E :=
  rbind (init_kwargs c e disk filepath kwargs) pydantic_init.

(** The call of the class on the entries of a dict as keywords: the entry
    [filepath] binds the first parameter of [__init__], the other entries
    are its keywords. *)
Definition construct {E} (pydantic_init : gmap string pval → result E)
    (c : FileModelClass) (e : env) (disk : gmap string string)
    (value : gmap string pval) : result E :=
  __init__ pydantic_init c e disk
    (default PNone (value !! "filepath")) (delete "filepath" value).

(** pydantic's [Model.validate] on a value that is not an instance: a dict
    is passed to the constructor, anything else is a [DictError]. *)
Definition pydantic_validate {E} (cons : gmap string pval → result E)
    (value : pval) : result E :=
  match value with
  | PDict d => cons d
  | _ => Err ValidationError
  end.

(** [FileModel.validate]. *)
Definition validate {E} (pydantic_init : gmap string pval → result E)
    (c : FileModelClass) (e : env) (disk : gmap string string)
    (value : pval) : result E :=
  let value :=
    match value with
    | PPath p => PDict {[ "filepath" := PPath p ]}
    | _ => value
    end in
  pydantic_validate (construct pydantic_init c e disk) value.

(** ** Entities in the store *)

(** A field of an entity holds a plain value or a reference to another
    file-backed entity ([isinstance(value, FileModel)]). *)
Inductive field_value :=
| Plain (v : pval)
| Nested (r : nat).

(** A [FileModel] instance: its class, its [filepath] field and its other
    fields in declaration order. *)
Record obj := Obj {
  cls : FileModelClass;
  filepath : option string;
  fields : list (string * field_value)
}.

Definition set_filepath (o : obj) (p : string) : obj :=
  {| cls := cls o; filepath := Some p; fields := fields o |}.

(** pydantic's [_get_value] under [exclude_none=True]: nested models become
    dicts without their [None] fields; lists and dicts are mapped over. *)
Fixpoint to_dict_value (v : pval) : pval :=
  match v with
  | PList l => PList (map to_dict_value l)
  | PDict m => PDict (to_dict_value <$> m)
  | PModel m =>
      PDict ((fix flatten (l : list (string * pval)) : gmap string pval :=
                match l with
                | [] => ∅
                | (k, w) :: l' =>
                    match w with
                    | PNone => flatten l'
                    | _ => <[k := to_dict_value w]> (flatten l')
                    end
                end) m)
  | _ => v
  end.

(** [self.dict(exclude=exclude, exclude_none=True)] over the fields other
    than [filepath]; every nested file-backed field is in [exclude] when
    [save] calls it. *)
Fixpoint dict (exclude : list string) (fs : list (string * field_value))
    : gmap string pval :=
  match fs with
  | [] => ∅
  | (name, Plain v) :: fs' =>
      if bool_decide (name ∈ exclude) then dict exclude fs'
      else match v with
           | PNone => dict exclude fs'
           | _ => <[name := to_dict_value v]> (dict exclude fs')
           end
  | (name, Nested _) :: fs' => dict exclude fs'
  end.

(** ** Saving: [FileModel.save]

    A call of [save] changes the store (it may bind [filepath]) and writes
    files.  The writes are kept as a trace of (absolute path, text), oldest
    first, so that what was written before an exception stays visible;
    [apply_writes] replays a trace on a disk.  The Python call stack is bounded: [fuel] is the depth the
    interpreter still allows, and running out of it is [RecursionError].
    The entity is read once, when the call begins: nothing a call does
    changes the class or the fields of an entity, or a location that is
    bound. *)

Record outcome (A : Type) := Outcome {
  out_heap : gmap nat obj;
  out_writes : list (string * string);
  out_result : result A
}.
Arguments Outcome {A} _ _ _.
Arguments out_heap {A} _.
Arguments out_writes {A} _.
Arguments out_result {A} _.

Definition apply_writes (ws : list (string * string))
    (disk : gmap string string) : gmap string string :=
  fold_left (λ d w, <[w.1 := w.2]> d) ws disk.

(** The loop [for name, value in self: if isinstance(value, FileModel): ...]
    of [save]: every nested file-backed field is saved with [save_child], in
    declaration order, and [filemodel_fields] collects the returned
    locations.  An exception of a child ends the loop. *)
Fixpoint save_children (save_child : nat → gmap nat obj → outcome string)
    (fs : list (string * field_value)) (h : gmap nat obj)
    : outcome (list (string * string)) :=
  match fs with
  | [] => Outcome h [] (Ok [])
  | (name, Plain _) :: fs' => save_children save_child fs' h
  | (name, Nested c) :: fs' =>
      let o1 := save_child c h in
      match out_result o1 with
      | Err e => Outcome (out_heap o1) (out_writes o1) (Err e)
      | Ok loc =>
          let o2 := save_children save_child fs' (out_heap o1) in
          Outcome (out_heap o2) (out_writes o1 ++ out_writes o2)
            (match out_result o2 with
             | Ok locs => Ok ((name, loc) :: locs)
             | Err e => Err e
             end)
      end
  end.

(** The names [save] adds to [exclude]. *)
Definition nested_names (fs : list (string * field_value)) : list string :=
  omap (λ f, match f.2 with Nested _ => Some f.1 | Plain _ => None end) fs.

(** [filemodel_fields], as the dict it is. *)
Definition filemodel_dict (locs : list (string * string))
    : gmap string pval :=
  fold_left (λ d nl, <[nl.1 := PStr nl.2]> d) locs ∅.

(** The mapping [save] hands to the serializer: [self.dict(...)] updated
    with [filemodel_fields]. *)
Definition save_data (fs : list (string * field_value))
    (locs : list (string * string)) : gmap string pval :=
  dict_update (dict ("filepath" :: nested_names fs) fs) (filemodel_dict locs).

Fixpoint save (fuel : nat) (e : env) (folder : string) (r : nat)
    (h : gmap nat obj) : outcome string :=
  match fuel with
  | O => Outcome h [] (Err RecursionError)
  | S fuel' =>
      match h !! r with
      | None => Outcome h [] (Err DanglingReference)
      | Some o =>
          let p := default (joinpath folder (_generate_name (cls o)))
                           (filepath o) in
          let h1 := <[r := set_filepath o p]> h in
          let oc := save_children (save fuel' e folder) (fields o) h1 in
          match out_result oc with
          | Err x => Outcome (out_heap oc) (out_writes oc) (Err x)
          | Ok locs =>
              let data := save_data (fields o) locs in
              match _get_serializer (cls o) e p data with
              | None =>
                  Outcome (out_heap oc) (out_writes oc) (Err SerializeError)
              | Some text =>
                  Outcome (out_heap oc)
                    (out_writes oc ++ [(absolute (cwd e) p, text)])
                    (Ok (absolute (cwd e) p))
              end
          end
      end
  end.

(** ** The shape of an entity graph *)

(** [depth_within h d r]: every chain of nested file-backed fields from [r]
    ends within [d] entities, and meets no dangling reference. *)
Fixpoint depth_within (h : gmap nat obj) (d : nat) (r : nat) : bool :=
  match d with
  | O => false
  | S d' =>
      match h !! r with
      | None => false
      | Some o =>
          forallb (λ f, match f.2 with
                        | Nested c => depth_within h d' c
                        | Plain _ => true
                        end) (fields o)
      end
  end.

(** [edge h a b]: entity [a] has a nested file-backed field holding [b]. *)
Definition edge (h : gmap nat obj) (a b : nat) : Prop :=
  ∃ o name, h !! a = Some o ∧ (name, Nested b) ∈ fields o.

(** A reference cycle lies ahead of [r]: [r] reaches, along nested fields, an
    entity that reaches itself. *)
Definition reaches_cycle (h : gmap nat obj) (r : nat) : Prop :=
  ∃ c, rtc (edge h) r c ∧ tc (edge h) c c.

(** Every serializer of the store renders every mapping. *)
Definition serializers_total (h : gmap nat obj) : Prop :=
  ∀ r o e p data, h !! r = Some o →
    is_Some (_get_serializer (cls o) e p data).

(** No nested field of the store holds a reference outside it. *)
Definition closed (h : gmap nat obj) : Prop :=
  ∀ a b, edge h a b → is_Some (h !! b).

(** What [save] may do to one entity: class and fields stay, and an absent
    [filepath] may become the default location in [folder]. *)
Definition obj_step (folder : string) (o o' : obj) : Prop :=
  cls o' = cls o ∧ fields o' = fields o ∧
  (filepath o' = filepath o ∨
   (filepath o = None ∧
    filepath o' = Some (joinpath folder (_generate_name (cls o))))).

Definition heap_step (folder : string) (h h' : gmap nat obj) : Prop :=
  ∀ r, option_Forall2 (obj_step folder) (h !! r) (h' !! r).

(** [h'] has the entities of [h], with every location bound in [h] bound
    to the same path. *)
Definition obj_extends (o o' : obj) : Prop :=
  cls o' = cls o ∧ fields o' = fields o ∧
  ∀ p, filepath o = Some p → filepath o' = Some p.

Definition extends (h h' : gmap nat obj) : Prop :=
  ∀ r, option_Forall2 obj_extends (h !! r) (h' !! r).

(** Two stores with the same entities and the same fields in each: they
    differ at most in classes and locations. *)
Definition same_fields (h h' : gmap nat obj) : Prop :=
  ∀ r, option_Forall2 (λ o o', fields o' = fields o) (h !! r) (h' !! r).

(** The resolved location of an entity: [str(self.filepath.absolute())]. *)
Definition resolved (e : env) (h : gmap nat obj) (r : nat) : option string :=
  o ← h !! r; p ← filepath o; Some (absolute (cwd e) p).

(** The nested file-backed fields, in declaration order. *)
Definition nested_fields (fs : list (string * field_value))
    : list (string * nat) :=
  omap (λ f, match f.2 with Nested c => Some (f.1, c) | Plain _ => None end)
       fs.

(** An entity without nested file-backed fields. *)
Definition leaf (h : gmap nat obj) (r : nat) : Prop :=
  ∃ o, h !! r = Some o ∧ nested_fields (fields o) = [].

(** The serializers of the store render the same text in two
    environments. *)
Definition same_rendering (h : gmap nat obj) (e1 e2 : env) : Prop :=
  ∀ r o p data, h !! r = Some o →
    _get_serializer (cls o) e1 p data = _get_serializer (cls o) e2 p data.

(** A serializer of the store that renders a mapping in [e1] renders it in
    [e2]. *)
Definition still_renders (h : gmap nat obj) (e1 e2 : env) : Prop :=
  ∀ r o p data, h !! r = Some o →
    is_Some (_get_serializer (cls o) e1 p data) →
    is_Some (_get_serializer (cls o) e2 p data).

(** A second call, made in [e2] on the store [h'], repeats a first call made
    in [e1]: the same result, no change to [h'], the same files written in
    the same order, with the same text when the serializers render alike. *)
Definition repeats {A} (e1 e2 : env) (h' : gmap nat obj)
    (first second : outcome A) : Prop :=
  out_result second = out_result first ∧
  out_heap second = h' ∧
  map fst (out_writes second) = map fst (out_writes first) ∧
  (same_rendering h' e1 e2 → out_writes second = out_writes first).

(** A second call, made on the store [h'], changes nothing in it and
    returns what the first call returned, unless a serializer fails. *)
Definition repeats_or_fails {A} (h' : gmap nat obj)
    (first second : outcome A) : Prop :=
  out_heap second = h' ∧
  (out_result second = out_result first ∨
   out_result second = Err SerializeError).

(** ** Text *)

Definition is_newline (c : ascii) : bool := Ascii.eqb c "010"%char.

(** The characters [str.split()] splits on: tab to carriage return, the
    four separators and the space. *)
Definition is_space (c : ascii) : bool :=
  let n := N_of_ascii c in
  ((9 <=? n)%N && (n <=? 13)%N) || ((28 <=? n)%N && (n <=? 32)%N).

(** [s.split(sep)] for the separators satisfying [p]: the pieces between
    them, empty ones included. *)
Fixpoint split_on (p : ascii → bool) (s : string) : list string :=
  match s with
  | EmptyString => [EmptyString]
  | String c s' =>
      if p c then EmptyString :: split_on p s'
      else match split_on p s' with
           | w :: ws => String c w :: ws
           | [] => [String c EmptyString]
           end
  end.

Definition nonempty (s : string) : bool :=
  match s with EmptyString => false | _ => true end.

(** [s.split()]: the runs of characters that are not white space. *)
Definition split_ws (s : string) : list string :=
  List.filter nonempty (split_on is_space s).

(** [sep.join(l)]. *)
Definition join (sep : string) (l : list string) : string :=
  String.concat sep l.

(** [str(z)] and [int(s)] for decimal text: an optional minus sign and
    digits. *)
Definition str_of_Z (z : Z) : string :=
  NilZero.string_of_int (Z.to_int z).

Definition int_of_text (s : string) : option Z :=
  option_map Z.of_int (NilZero.int_of_string s).

Definition is_int_token (s : string) : bool :=
  match int_of_text s with Some _ => true | None => false end.

(** ** Calendar: what the [datetime] constructor accepts *)

Definition is_leap (y : Z) : bool :=
  ((y mod 4 =? 0) && negb (y mod 100 =? 0) || (y mod 400 =? 0))%Z.

Definition days_in_month (y m : Z) : Z :=
  (if m =? 2 then (if is_leap y then 29 else 28)
   else if (m =? 4) || (m =? 6) || (m =? 9) || (m =? 11) then 30
   else 31)%Z.

Definition valid_datetime (d : datetime) : bool :=
  ((1 <=? year d) && (year d <=? 9999) &&
   (1 <=? month d) && (month d <=? 12) &&
   (1 <=? day d) && (day d <=? days_in_month (year d) (month d)) &&
   (0 <=? hour d) && (hour d <? 24) &&
   (0 <=? minute d) && (minute d <? 60) &&
   (0 <=? second d) && (second d <? 60))%Z.

(** [timedelta(days=, hours=, minutes=, seconds=)], as total seconds. *)
Definition timedelta (days hours minutes seconds : Z) : Z :=
  (days * 86400 + hours * 3600 + minutes * 60 + seconds)%Z.

(** ** The parser of the format

    [hydrolib/core/io/bui/parser.py] is not among the sources; the
    definitions of this part follow sections 2 and 4.2 of the specification
    and the calls of [tests/io/test_bui.py]. *)

(** Modelled from the spec: the comment test of the Line Tokenizer (the
    parser module is missing), a line beginning with the marker [*]. *)
Definition is_comment (line : string) : bool :=
  match line with
  | String "*" _ => true
  | _ => false
  end.

(** Modelled from the spec: the Line Tokenizer (the parser module is
    missing) splits the text into lines and discards the comment lines. *)
Definition tokenize_lines (text : string) : list string :=
  List.filter (λ l, negb (is_comment l)) (split_on is_newline text).

Fixpoint all_ints (toks : list string) : option (list Z) :=
  match toks with
  | [] => Some []
  | t :: ts =>
      match int_of_text t, all_ints ts with
      | Some z, Some zs => Some (z :: zs)
      | _, _ => None
      end
  end.

(** Modelled from the spec: the header pattern of an event block (the
    parser module is missing), ten white-space separated integer tokens. *)
Definition header_ints (line : string) : option (list Z) :=
  let toks := split_ws line in
  if Nat.eqb (length toks) 10 then all_ints toks else None.

Definition is_header (line : string) : bool :=
  match header_ints line with Some _ => true | None => false end.

(** Modelled from the spec: [BuiEventParser.parse] on the lines of one block
    (the parser module is missing).  The first six integers are the start
    time, the last four the elapsed days, hours, minutes and seconds; every
    further line is a row of observation tokens, kept as text. *)
Definition parse_event_lines (block : list string)
    : result (gmap string pval) :=
  match block with
  | [] => Err FormatError
  | hd :: rows =>
      match header_ints hd with
      | Some [Y; M; D; h; m; s; dd; hh; mm; ss] =>
          let dt := DateTime Y M D h m s in
          if valid_datetime dt then
            Ok {[ "start_time" := PDateTime dt;
                  "timeseries_length" := PTimedelta (timedelta dd hh mm ss);
                  "precipitation_per_timestep" :=
                    PList (map (λ row, PList (map PStr (split_ws row)))
                               rows) ]}
          else Err FormatError
      | _ => Err FormatError
      end
  end.

(** Modelled from the spec: [BuiEventParser.parse] (the parser module is
    missing), on the text of one block. *)
Definition BuiEventParser_parse (raw_text : string)
    : result (gmap string pval) :=
  parse_event_lines (split_on is_newline raw_text).

(** Modelled from the spec: the block structure of the event lines (the
    parser module is missing).  Rows accumulate under the current event
    until a line of the header shape starts the next one.  The first
    component holds the lines before the first header. *)
Fixpoint split_blocks (lines : list string)
    : list string * list (list string) :=
  match lines with
  | [] => ([], [])
  | l :: rest =>
      let '(rows, blocks) := split_blocks rest in
      if is_header l then ([], (l :: rows) :: blocks)
      else (l :: rows, blocks)
  end.

Fixpoint parse_events (blocks : list (list string))
    : result (list (gmap string pval)) :=
  match blocks with
  | [] => Ok []
  | b :: bs =>
      match parse_event_lines b, parse_events bs with
      | Ok ev, Ok evs => Ok (ev :: evs)
      | Err e, _ => Err e
      | _, Err e => Err e
      end
  end.

Definition single_int_token (line : string) : option string :=
  match split_ws line with
  | [t] => if is_int_token t then Some t else None
  | _ => None
  end.

Definition two_int_tokens (line : string) : option (string * string) :=
  match split_ws line with
  | [t; u] => if is_int_token t && is_int_token u then Some (t, u) else None
  | _ => None
  end.

(** Modelled from the spec: the Document Parser on the text of a file (the
    parser module is missing): four fixed lines, then one or more event
    blocks.  Tokens of the fixed lines stay text. *)
Definition parse_bui_text (text : string) : result (gmap string pval) :=
  match tokenize_lines text with
  | l1 :: l2 :: l3 :: l4 :: rest =>
      match single_int_token l1, single_int_token l2, two_int_tokens l4,
            split_blocks rest with
      | Some ds, Some ns, Some (ne, st), ([], b :: bs) =>
          rbind (parse_events (b :: bs)) (λ evs,
            Ok {[ "default_dataset" := PStr ds;
                  "number_of_stations" := PStr ns;
                  "name_of_stations" := PList (map PStr (split_ws l3));
                  "number_of_events" := PStr ne;
                  "seconds_per_timestep" := PStr st;
                  "precipitation_events" :=
                    PDict {[ "precipitation_event_list" :=
                               PList (map PDict evs) ]} ]})
      | _, _, _, _ => Err FormatError
      end
  | _ => Err FormatError
  end.

(** Modelled from the spec: [BuiParser.parse] (the parser module is
    missing): the file is read, a missing file is a [LoadError]. *)
Definition BuiParser_parse (e : env) (disk : gmap string string)
    (path : pval) : result (gmap string pval) :=
  match path with
  | PPath p | PStr p =>
      match read_text e disk p with
      | Some text => parse_bui_text text
      | None => Err LoadError
      end
  | _ => Err LoadError
  end.

(** ** The serializer of the format

    [hydrolib/core/io/bui/serializer.py] is not among the sources; the
    definitions of this part follow section 4.3 of the specification and
    the calls of [tests/io/test_bui.py]. *)

(** [str(value)] for the scalars the serializer prints. *)
Definition str_of (v : pval) : option string :=
  match v with
  | PStr s => Some s
  | PInt z => Some (str_of_Z z)
  | PPath p => Some p
  | _ => None
  end.

Definition as_list (v : pval) : option (list pval) :=
  match v with PList l => Some l | _ => None end.

Definition as_dict (v : pval) : option (gmap string pval) :=
  match v with PDict m => Some m | _ => None end.

Definition as_datetime (v : pval) : option datetime :=
  match v with PDateTime d => Some d | _ => None end.

Definition as_timedelta (v : pval) : option Z :=
  match v with PTimedelta s => Some s | _ => None end.

(** Modelled from the spec: [BuiSerializer.serialize_start_time] (the
    serializer module is missing), the six fields without padding. *)
Definition serialize_start_time (d : datetime) : string :=
  join " " (map str_of_Z
    [year d; month d; day d; hour d; minute d; second d]).

(** Modelled from the spec: the duration decomposition of the serializer
    (the serializer module is missing), with Python's floor division and
    modulo. *)
Definition decompose_seconds (total : Z) : Z * Z * Z * Z :=
  let days := (total / 86400)%Z in
  let r := (total mod 86400)%Z in
  let hours := (r / 3600)%Z in
  let r := (r mod 3600)%Z in
  let minutes := (r / 60)%Z in
  let seconds := (r mod 60)%Z in
  (days, hours, minutes, seconds).

Definition reconstruct_seconds (d : Z * Z * Z * Z) : Z :=
  let '(days, hours, minutes, seconds) := d in
  (days * 86400 + hours * 3600 + minutes * 60 + seconds)%Z.

(** Modelled from the spec: [BuiSerializer.serialize_timeseries_length]
    (the serializer module is missing). *)
Definition serialize_timeseries_length (total : Z) : string :=
  let '(days, hours, minutes, seconds) := decompose_seconds total in
  join " " (map str_of_Z [days; hours; minutes; seconds]).

(** Modelled from the spec: [BuiSerializer.serialize_stations_ids] (the
    serializer module is missing), joined by single spaces. *)
Definition serialize_stations_ids (ids : list string) : string :=
  join " " ids.

(** Modelled from the spec: the lines of one event (the serializer module is
    missing): the header line, then one line per row. *)
Definition serialize_event_lines (ev : pval) : option (list string) :=
  m ← as_dict ev;
  st ← m !! "start_time" ≫= as_datetime;
  tl ← m !! "timeseries_length" ≫= as_timedelta;
  rows ← m !! "precipitation_per_timestep" ≫= as_list;
  row_lines ← mapM (λ row, toks ← as_list row;
                            words ← mapM str_of toks;
                            Some (join " " words)) rows;
  Some ((serialize_start_time st ++ " " ++ serialize_timeseries_length tl)
          :: row_lines).

Definition pad2 (z : Z) : string :=
  if (z <? 10)%Z then "0" ++ str_of_Z z else str_of_Z z.

(** [strftime("%d-%m-%y %H:%M:%S")]. *)
Definition strftime_construction (t : datetime) : string :=
  pad2 (day t) ++ "-" ++ pad2 (month t) ++ "-" ++ pad2 (year t mod 100)
    ++ " " ++ pad2 (hour t) ++ ":" ++ pad2 (minute t) ++ ":"
    ++ pad2 (second t).

(** Modelled from the spec: [BuiSerializer.serialize] (the serializer module
    is missing), the text layout of section 4.3 for a mapping that holds
    its own [filepath]. *)
Definition BuiSerializer_serialize (t : datetime) (data : gmap string pval)
    : option string :=
  location ← data !! "filepath" ≫= str_of;
  dataset ← data !! "default_dataset" ≫= str_of;
  stations ← data !! "number_of_stations" ≫= str_of;
  names ← data !! "name_of_stations" ≫= as_list;
  names ← mapM str_of names;
  events ← data !! "number_of_events" ≫= str_of;
  step ← data !! "seconds_per_timestep" ≫= str_of;
  evlist ← data !! "precipitation_events" ≫= as_dict;
  evs ← evlist !! "precipitation_event_list" ≫= as_list;
  evs ← mapM serialize_event_lines evs;
  Some (join (String "010"%char EmptyString)
    ([ "*Name of this file: " ++ location;
       "*Date and time of construction: " ++ strftime_construction t;
       "*Comments are following an * (asterisk) and written above variables";
       dataset;
       "*Number of stations";
       stations;
       "*Station Name";
       serialize_stations_ids names;
       "*Number_of_events seconds_per_timestamp";
       events ++ " " ++ step;
       "*Start datetime and number of timestamps in the format: yyyy#m#d:#h#m#s:#d#h#m#s";
       "*Observations per timestamp (row) and per station (column)" ]
     ++ concat evs)).

(** Modelled from the spec: [write_bui_file] (the serializer module is
    missing): the text for the location it is given. *)
Definition write_bui_file (e : env) (path : string)
    (data : gmap string pval) : option string :=
  BuiSerializer_serialize (now e) (<["filepath" := PPath path]> data).

(** The capabilities [BuiModel] declares in [models.py]: [_filename],
    [_ext], [_get_serializer] and [_get_parser]. *)
Definition BuiModel_class : FileModelClass := {|
  _filename := "bui_file";
  _ext := ".bui";
  _get_parser := BuiParser_parse;
  _get_serializer := write_bui_file
|}.

(** ** The shape of what the parser returns *)

(** A value left as text: a string, or a list of such values. *)
Fixpoint is_text (v : pval) : bool :=
  match v with
  | PStr _ => true
  | PList l => forallb is_text l
  | _ => false
  end.

(** The shape of an event in the parser's mapping: the start time and the
    duration are typed, the rows are text, and there is no other entry. *)
Definition event_shape (ev : gmap string pval) : Prop :=
  ∃ dt secs rows,
    ev = {[ "start_time" := PDateTime dt;
            "timeseries_length" := PTimedelta secs;
            "precipitation_per_timestep" := rows ]} ∧
    is_text rows = true.

(** ** Sample data *)

Definition nl : string := String "010"%char EmptyString.

Definition sample_env : env :=
  {| cwd := "/work"; now := DateTime 2021 3 4 5 6 7 |}.

(** The environment one second later. *)
Definition later_env : env :=
  {| cwd := "/work"; now := DateTime 2021 3 4 5 6 8 |}.

(** The text of a [.bui] file in the layout of [tests/io/test_bui.py]: one
    station, one event, two rows. *)
Definition default_bui_text : string :=
  join nl
    [ "*Name of this file: /data/default.bui";
      "*Date and time of construction: 04-03-21 05:06:07";
      "*Comments are following an * (asterisk) and written above variables";
      "1";
      "*Number of stations";
      "1";
      "*Station Name";
      "’Station1’";
      "*Number_of_events seconds_per_timestamp";
      "1 10800";
      "*Start datetime and number of timestamps in the format: yyyy#m#d:#h#m#s:#d#h#m#s";
      "*Observations per timestamp (row) and per station (column)";
      "1996 1 1 0 0 0 1 3 0 0";
      "0.2";
      "0.2" ].

Definition sample_disk : gmap string string :=
  {[ "/data/default.bui" := default_bui_text ]}.

(** The field mapping the parser returns for that file. *)
Definition default_event_mapping : gmap string pval :=
  {[ "start_time" := PDateTime (DateTime 1996 1 1 0 0 0);
     "timeseries_length" := PTimedelta 97200;
     "precipitation_per_timestep" :=
       PList [PList [PStr "0.2"]; PList [PStr "0.2"]] ]}.

Definition default_parsed_mapping : gmap string pval :=
  {[ "default_dataset" := PStr "1";
     "number_of_stations" := PStr "1";
     "name_of_stations" := PList [PStr "’Station1’"];
     "number_of_events" := PStr "1";
     "seconds_per_timestep" := PStr "10800";
     "precipitation_events" :=
       PDict {[ "precipitation_event_list" :=
                  PList [PDict default_event_mapping] ]} ]}.

(** A format in the manner of the base class ([_filename] is ["test"],
    [_ext] is [".test"] there): the parser yields no field and the
    serializer prints the textual entries of the mapping, one per line. *)
Definition render_mapping (data : gmap string pval) : string :=
  join nl (map (λ kv, kv.1 ++ "=" ++ default "?" (str_of kv.2))
               (map_to_list data)).

Definition plain_class (name : string) : FileModelClass := {|
  _filename := name;
  _ext := ".test";
  _get_parser := λ _ _ _, Ok ∅;
  _get_serializer := λ _ _ data, Some (render_mapping data)
|}.

(** A root with a plain field and two unbound nested models of different
    formats. *)
Definition family_heap : gmap nat obj :=
  {[ 0 := {| cls := plain_class "root"; filepath := None;
             fields := [ ("title", Plain (PStr "rain"));
                         ("left", Nested 1); ("right", Nested 2) ] |};
     1 := {| cls := plain_class "left"; filepath := None;
             fields := [ ("depth", Plain (PInt 3)) ] |};
     2 := {| cls := plain_class "right"; filepath := None;
             fields := [] |} ]}.

(** The same root with two unbound nested models of one format. *)
Definition twins_heap : gmap nat obj :=
  {[ 0 := {| cls := plain_class "root"; filepath := None;
             fields := [ ("left", Nested 1); ("right", Nested 2) ] |};
     1 := {| cls := plain_class "child"; filepath := None;
             fields := [ ("depth", Plain (PInt 3)) ] |};
     2 := {| cls := plain_class "child"; filepath := None;
             fields := [ ("depth", Plain (PInt 4)) ] |} ]}.

(** Two models that hold each other; the first also holds a leaf, declared
    before the reference that closes the cycle. *)
Definition cyclic_heap : gmap nat obj :=
  {[ 0 := {| cls := plain_class "a"; filepath := None;
             fields := [ ("notes", Nested 2); ("partner", Nested 1) ] |};
     1 := {| cls := plain_class "b"; filepath := None;
             fields := [ ("partner", Nested 0) ] |};
     2 := {| cls := plain_class "notes"; filepath := None;
             fields := [] |} ]}.

(** A format whose serializer raises unless the clock shows the seventh
    second of a minute, and a model of that format. *)
Definition moody_class : FileModelClass := {|
  _filename := "moody";
  _ext := ".test";
  _get_parser := λ _ _ _, Ok ∅;
  _get_serializer := λ e _ data,
    if (second (now e) =? 7)%Z then Some (render_mapping data) else None
|}.

Definition moody_heap : gmap nat obj :=
  {[ 0 := {| cls := moody_class; filepath := None; fields := [] |} ]}.

(** A [BuiModel] in the store, not yet bound to a location: the fields
    [models.py] declares, as the entity holds them, for one station and one
    event of 27 hours that has no row of observations yet. *)
Definition bui_fields : list (string * field_value) :=
  [ ("default_dataset", Plain (PInt 1));
    ("number_of_stations", Plain (PInt 1));
    ("name_of_stations", Plain (PList [PStr "’Station1’"]));
    ("number_of_events", Plain (PInt 1));
    ("seconds_per_timestep", Plain (PInt 10800));
    ("precipitation_events",
     Plain (PModel
       [ ("precipitation_event_list",
          PList [ PModel
            [ ("start_time", PDateTime (DateTime 1996 1 1 0 0 0));
              ("timeseries_length", PTimedelta 97200);
              ("precipitation_per_timestep", PList []) ] ]) ])) ].

Definition bui_heap : gmap nat obj :=
  {[ 0 := {| cls := BuiModel_class; filepath := None;
             fields := bui_fields |} ]}.

(** * Properties *)

(** ** Construction and validation *)

Lemma init_kwargs_loaded c e disk filepath kwargs data :
  truthy filepath = true →
  _parse c e disk filepath = Ok data →
  init_kwargs c e disk filepath kwargs
  = Ok (<["filepath" := filepath]> data ∪ kwargs).
Proof.
  intros Ht Hp. unfold init_kwargs, _load. by rewrite Ht, Hp.
Qed.

(** C1 (as the code has it).  With a true [filepath], the mapping handed to
    validation holds the location under ["filepath"], every other parsed
    field with its parsed value, also when an explicit keyword of the same
    name was supplied, and the explicit keywords only for the names the
    parser did not produce. *)
Theorem init_kwargs_parsed_wins c e disk filepath kwargs data :
  truthy filepath = true →
  _parse c e disk filepath = Ok data →
  ∃ m, init_kwargs c e disk filepath kwargs = Ok m ∧
       m !! "filepath" = Some filepath ∧
       (∀ k v, k ≠ "filepath" → data !! k = Some v → m !! k = Some v) ∧
       (∀ k, k ≠ "filepath" → data !! k = None → m !! k = kwargs !! k).
Proof.
  intros Ht Hp. eexists. split; [by apply init_kwargs_loaded|].
  split; [|split].
  - apply lookup_union_Some_l. by rewrite lookup_insert_eq.
  - intros k v Hk Hd. apply lookup_union_Some_l.
    by rewrite lookup_insert_ne.
  - intros k Hk Hd. apply lookup_union_r. by rewrite lookup_insert_ne.
Qed.

(** C9.  A bare [Path] given to [validate] is not turned down as a value of
    the wrong type, which is what pydantic's own [validate] does with it: it
    is validated as the dict [{"filepath": path}], that is, the model is
    constructed with that location alone, and so from the mapping parsed at
    that path with the path under ["filepath"]. *)
Theorem validate_path_loads {E} (pydantic_init : gmap string pval → result E)
    c e disk p :
  validate pydantic_init c e disk (PPath p)
  = validate pydantic_init c e disk (PDict {[ "filepath" := PPath p ]}) ∧
  validate pydantic_init c e disk (PPath p)
  = __init__ pydantic_init c e disk (PPath p) ∅ ∧
  validate pydantic_init c e disk (PPath p)
  = rbind (_parse c e disk (PPath p))
      (λ data, pydantic_init (<["filepath" := PPath p]> data)) ∧
  pydantic_validate (construct pydantic_init c e disk) (PPath p)
  = Err ValidationError.
Proof.
  assert (Hc : validate pydantic_init c e disk (PPath p)
               = __init__ pydantic_init c e disk (PPath p) ∅).
  { unfold validate, pydantic_validate, construct.
    rewrite lookup_singleton_eq, delete_singleton_eq. reflexivity. }
  split; [reflexivity|]. split; [exact Hc|]. split; [|reflexivity].
  rewrite Hc. unfold __init__, init_kwargs, _load. simpl.
  destruct (_parse c e disk (PPath p)) as [data|x]; simpl; [|reflexivity].
  unfold dict_update. by rewrite (right_id_L ∅ (∪)).
Qed.

(** ** What [save] does to the store *)

Lemma obj_step_refl folder o : obj_step folder o o.
Proof. repeat split; auto. Qed.

Lemma obj_step_trans folder o1 o2 o3 :
  obj_step folder o1 o2 → obj_step folder o2 o3 → obj_step folder o1 o3.
Proof.
  intros (Hc1 & Hf1 & Hp1) (Hc2 & Hf2 & Hp2).
  split; [congruence|]. split; [congruence|].
  destruct Hp1 as [Hp1|[Hn1 Hp1]], Hp2 as [Hp2|[Hn2 Hp2]].
  - left. congruence.
  - right. split; congruence.
  - right. split; congruence.
  - congruence.
Qed.

Lemma heap_step_refl folder h : heap_step folder h h.
Proof.
  intros r. destruct (h !! r); constructor. apply obj_step_refl.
Qed.

Lemma heap_step_trans folder h1 h2 h3 :
  heap_step folder h1 h2 → heap_step folder h2 h3 → heap_step folder h1 h3.
Proof.
  intros H12 H23 r. specialize (H12 r). specialize (H23 r).
  destruct H12 as [o1 o2 Ho|]; inversion H23; subst; constructor.
  eapply obj_step_trans; eauto.
Qed.

Lemma heap_step_insert folder h r o o' :
  h !! r = Some o → obj_step folder o o' →
  heap_step folder h (<[r := o']> h).
Proof.
  intros Hr Ho r'. destruct (decide (r = r')) as [<-|Hne].
  - rewrite lookup_insert_eq, Hr. by constructor.
  - rewrite lookup_insert_ne by done. apply heap_step_refl.
Qed.

Lemma obj_step_bind folder o :
  obj_step folder o
    (set_filepath o (default (joinpath folder (_generate_name (cls o)))
                             (filepath o))).
Proof.
  split; [reflexivity|]. split; [reflexivity|].
  destruct (filepath o) eqn:Hp; simpl; [left|right]; auto.
Qed.

Lemma save_unfold fuel e folder r h o :
  h !! r = Some o →
  save (S fuel) e folder r h
  = let p := default (joinpath folder (_generate_name (cls o)))
                     (filepath o) in
    let oc := save_children (save fuel e folder) (fields o)
                (<[r := set_filepath o p]> h) in
    match out_result oc with
    | Err x => Outcome (out_heap oc) (out_writes oc) (Err x)
    | Ok locs =>
        match _get_serializer (cls o) e p (save_data (fields o) locs) with
        | None => Outcome (out_heap oc) (out_writes oc) (Err SerializeError)
        | Some text =>
            Outcome (out_heap oc)
              (out_writes oc ++ [(absolute (cwd e) p, text)])
              (Ok (absolute (cwd e) p))
        end
    end.
Proof. intros Hr. simpl. rewrite Hr. reflexivity. Qed.

Lemma save_heap fuel e folder r h o :
  h !! r = Some o →
  out_heap (save (S fuel) e folder r h)
  = out_heap (save_children (save fuel e folder) (fields o)
      (<[r := set_filepath o
                (default (joinpath folder (_generate_name (cls o)))
                         (filepath o))]> h)).
Proof.
  intros Hr. rewrite (save_unfold _ _ _ _ _ _ Hr). cbv zeta.
  destruct (out_result _); [|reflexivity].
  destruct (_get_serializer _ _ _ _); reflexivity.
Qed.

Lemma save_children_step folder f :
  (∀ c h, heap_step folder h (out_heap (f c h))) →
  ∀ fs h, heap_step folder h (out_heap (save_children f fs h)).
Proof.
  intros Hf fs. induction fs as [|[name [v|c]] fs IH]; intros h; simpl.
  - apply heap_step_refl.
  - apply IH.
  - destruct (out_result (f c h)) eqn:Hres; simpl.
    + eapply heap_step_trans; [apply Hf|apply IH].
    + apply Hf.
Qed.

Lemma save_step fuel e folder :
  ∀ r h, heap_step folder h (out_heap (save fuel e folder r h)).
Proof.
  induction fuel as [|fuel IH]; intros r h.
  - apply heap_step_refl.
  - destruct (h !! r) as [o|] eqn:Hr.
    + rewrite (save_heap _ _ _ _ _ _ Hr).
      eapply heap_step_trans.
      * eapply heap_step_insert; [exact Hr|apply obj_step_bind].
      * apply save_children_step. exact IH.
    + simpl. rewrite Hr. apply heap_step_refl.
Qed.

Lemma heap_step_same_fields folder h h' :
  heap_step folder h h' → same_fields h h'.
Proof.
  intros Hs r. destruct (Hs r) as [o o' (_ & Hf & _)|]; by constructor.
Qed.

Lemma heap_step_extends folder h h' : heap_step folder h h' → extends h h'.
Proof.
  intros Hs r. destruct (Hs r) as [o o' (Hc & Hf & Hp)|]; constructor.
  split; [done|]. split; [done|]. intros p Ho.
  destruct Hp as [Hp|[Hn _]]; congruence.
Qed.

Lemma extends_refl h : extends h h.
Proof. intros r. destruct (h !! r); constructor. by repeat split. Qed.

Lemma extends_trans h1 h2 h3 : extends h1 h2 → extends h2 h3 → extends h1 h3.
Proof.
  intros H12 H23 r. specialize (H12 r). specialize (H23 r).
  destruct H12 as [o1 o2 (Hc & Hf & Hp)|]; inversion H23 as [? o3 (Hc' & Hf' & Hp')|];
    subst; constructor.
  split; [congruence|]. split; [congruence|]. auto.
Qed.

Lemma forallb_pointwise {A} (f g : A → bool) (l : list A) :
  (∀ x, f x = g x) → forallb f l = forallb g l.
Proof.
  intros Hfg. induction l as [|x l IH]; simpl; [reflexivity|].
  by rewrite Hfg, IH.
Qed.

Lemma depth_within_same_fields h h' :
  same_fields h h' → ∀ d r, depth_within h' d r = depth_within h d r.
Proof.
  intros Hs d. induction d as [|d IH]; intros r; simpl; [reflexivity|].
  destruct (Hs r) as [o o' Hf|]; [|reflexivity].
  rewrite Hf. apply forallb_pointwise. intros [name [v|c]]; simpl; auto.
Qed.

Lemma serializers_total_step folder h h' :
  heap_step folder h h' → serializers_total h → serializers_total h'.
Proof.
  intros Hs Ht r o' e p data Hr. specialize (Hs r). rewrite Hr in Hs.
  inversion Hs as [o ? (Hc & _) Ho|]; subst. rewrite Hc. eapply Ht; eauto.
Qed.

(** ** When [save] returns *)

Lemma save_children_ok fuel e folder
    (IH : ∀ r h, serializers_total h → depth_within h fuel r = true →
                 is_ok (out_result (save fuel e folder r h)) = true) :
  ∀ fs h, serializers_total h →
    forallb (λ f, match f.2 with
                  | Nested c => depth_within h fuel c
                  | Plain _ => true
                  end) fs = true →
    is_ok (out_result (save_children (save fuel e folder) fs h)) = true.
Proof.
  induction fs as [|[name [v|c]] fs IHfs]; intros h Ht Hd; simpl in *.
  - reflexivity.
  - by apply IHfs.
  - apply andb_true_iff in Hd as [Hc Hd].
    specialize (IH c h Ht Hc).
    pose proof (save_step fuel e folder c h) as Hs.
    destruct (out_result (save fuel e folder c h)) as [loc|x]; [|done].
    simpl.
    assert (Hok : is_ok (out_result (save_children (save fuel e folder) fs
                     (out_heap (save fuel e folder c h)))) = true).
    { apply IHfs; [by eapply serializers_total_step|].
      rewrite <- Hd. apply forallb_pointwise. intros [n' [v'|c']]; simpl; auto.
      apply depth_within_same_fields. by eapply heap_step_same_fields. }
    by destruct (out_result (save_children _ _ _)).
Qed.

(** Enough fuel gives a result: an entity whose chains of nested models end
    within the recursion depth is saved, when the serializers render. *)
Lemma save_ok fuel e folder :
  ∀ r h, serializers_total h → depth_within h fuel r = true →
    is_ok (out_result (save fuel e folder r h)) = true.
Proof.
  induction fuel as [|fuel IH]; intros r h Ht Hd; [done|].
  simpl in Hd. destruct (h !! r) as [o|] eqn:Hr; [|done].
  rewrite (save_unfold _ _ _ _ _ _ Hr). cbv zeta.
  set (p := default _ _).
  assert (Hs : heap_step folder h (<[r := set_filepath o p]> h)).
  { eapply heap_step_insert; [exact Hr|apply obj_step_bind]. }
  assert (Hok : is_ok (out_result (save_children (save fuel e folder)
                   (fields o) (<[r := set_filepath o p]> h))) = true).
  { apply save_children_ok; [exact IH|by eapply serializers_total_step|].
    rewrite <- Hd. apply forallb_pointwise. intros [n' [v'|c']]; simpl; auto.
    apply depth_within_same_fields. by eapply heap_step_same_fields. }
  destruct (out_result (save_children _ _ _)) as [locs|x]; [|done].
  destruct (Ht r o e p (save_data (fields o) locs) Hr) as [text Htext].
  by rewrite Htext.
Qed.

Lemma save_children_err fuel e folder
    (IH : ∀ r h, depth_within h fuel r = false →
                 is_ok (out_result (save fuel e folder r h)) = false) :
  ∀ fs h,
    forallb (λ f, match f.2 with
                  | Nested c => depth_within h fuel c
                  | Plain _ => true
                  end) fs = false →
    is_ok (out_result (save_children (save fuel e folder) fs h)) = false.
Proof.
  induction fs as [|[name [v|c]] fs IHfs]; intros h Hd; simpl in *.
  - done.
  - by apply IHfs.
  - pose proof (save_step fuel e folder c h) as Hs.
    specialize (IH c h).
    destruct (out_result (save fuel e folder c h)) as [loc|x]; [|done].
    simpl.
    destruct (depth_within h fuel c); [|by specialize (IH eq_refl)].
    simpl in Hd.
    assert (Hno : is_ok (out_result (save_children (save fuel e folder) fs
                     (out_heap (save fuel e folder c h)))) = false).
    { apply IHfs. rewrite <- Hd. apply forallb_pointwise.
      intros [n' [v'|c']]; simpl; auto.
      apply depth_within_same_fields. by eapply heap_step_same_fields. }
    by destruct (out_result (save_children _ _ _)).
Qed.

(** Too little fuel gives none. *)
Lemma save_err fuel e folder :
  ∀ r h, depth_within h fuel r = false →
    is_ok (out_result (save fuel e folder r h)) = false.
Proof.
  induction fuel as [|fuel IH]; intros r h Hd; [done|].
  simpl in Hd. destruct (h !! r) as [o|] eqn:Hr;
    [|by simpl; rewrite Hr].
  rewrite (save_unfold _ _ _ _ _ _ Hr). cbv zeta.
  set (p := default _ _).
  assert (Hs : heap_step folder h (<[r := set_filepath o p]> h)).
  { eapply heap_step_insert; [exact Hr|apply obj_step_bind]. }
  assert (Hno : is_ok (out_result (save_children (save fuel e folder)
                   (fields o) (<[r := set_filepath o p]> h))) = false).
  { apply save_children_err; [exact IH|].
    rewrite <- Hd. apply forallb_pointwise. intros [n' [v'|c']]; simpl; auto.
    apply depth_within_same_fields. by eapply heap_step_same_fields. }
  by destruct (out_result (save_children _ _ _)).
Qed.

(** ** Reference cycles *)

Lemma depth_within_edge h d a b :
  edge h a b → depth_within h (S d) a = true → depth_within h d b = true.
Proof.
  intros (o & name & Ha & Hin) Hd. simpl in Hd. rewrite Ha in Hd.
  rewrite forallb_forall in Hd.
  apply (Hd (name, Nested b)). by apply list_elem_of_In.
Qed.

Lemma cycle_unbounded h : ∀ d c, tc (edge h) c c → depth_within h d c = false.
Proof.
  induction d as [|d IH]; intros c Hc; [done|].
  destruct (depth_within h (S d) c) eqn:Hd; [|done].
  assert (∃ c1, edge h c c1 ∧ tc (edge h) c1 c1) as (c1 & He & Hc1).
  { inversion Hc as [? ? He|? c1 ? He Hrest]; subst.
    - exists c. split; [done|]. by apply tc_once.
    - exists c1. split; [done|]. eapply tc_r; eauto. }
  apply (depth_within_edge _ d) in He; [|done].
  by rewrite (IH c1 Hc1) in He.
Qed.

Lemma reaches_cycle_unbounded h r :
  reaches_cycle h r → ∀ d, depth_within h d r = false.
Proof.
  intros (c & Hreach & Hc).
  induction Hreach as [c|r r1 c He Hreach IH]; intros d.
  - by apply cycle_unbounded.
  - destruct d as [|d]; [done|].
    destruct (depth_within h (S d) r) eqn:Hd; [|done].
    apply (depth_within_edge _ d _ r1) in Hd; [|done].
    by rewrite (IH Hc d) in Hd.
Qed.

Lemma closed_step folder h h' : heap_step folder h h' → closed h → closed h'.
Proof.
  intros Hs Hc a b (o' & name & Ha & Hin).
  pose proof (Hs a) as Hsa. rewrite Ha in Hsa.
  inversion Hsa as [o ? (_ & Hf & _) Ho|]; subst.
  destruct (Hc a b) as [ob Hb].
  { exists o, name. split; [done|]. by rewrite <- Hf. }
  specialize (Hs b). rewrite Hb in Hs. inversion Hs; subst. eauto.
Qed.

Lemma is_Some_step folder h h' r :
  heap_step folder h h' → is_Some (h !! r) → is_Some (h' !! r).
Proof.
  intros Hs [o Ho]. specialize (Hs r). rewrite Ho in Hs.
  inversion Hs; subst. eauto.
Qed.

Lemma save_children_error_kind fuel e folder
    (IH : ∀ r h x, closed h → is_Some (h !! r) → serializers_total h →
            out_result (save fuel e folder r h) = Err x →
            x = RecursionError) :
  ∀ fs h x, closed h → serializers_total h →
    (∀ name c, (name, Nested c) ∈ fs → is_Some (h !! c)) →
    out_result (save_children (save fuel e folder) fs h) = Err x →
    x = RecursionError.
Proof.
  induction fs as [|[name [v|c]] fs IHfs]; intros h x Hc Ht Hin Hx;
    simpl in *.
  - done.
  - eapply IHfs; eauto. intros n' c' Hn'. eapply Hin. by right.
  - pose proof (save_step fuel e folder c h) as Hs.
    destruct (out_result (save fuel e folder c h)) as [loc|y] eqn:Hres;
      simpl in Hx.
    + destruct (out_result (save_children _ _ _)) as [locs|y] eqn:Hres2;
        [done|]. injection Hx as ->.
      eapply IHfs; [by eapply closed_step|by eapply serializers_total_step
                   | |exact Hres2].
      intros n' c' Hn'. eapply is_Some_step; [exact Hs|].
      eapply Hin. by right.
    + injection Hx as ->. eapply (IH c h); eauto. eapply Hin. by left.
Qed.

(** In a store without dangling references and with serializers that
    render, the only exception of [save] is [RecursionError]. *)
Lemma save_error_kind fuel e folder :
  ∀ r h x, closed h → is_Some (h !! r) → serializers_total h →
    out_result (save fuel e folder r h) = Err x → x = RecursionError.
Proof.
  induction fuel as [|fuel IH]; intros r h x Hc [o Hr] Ht Hx.
  - simpl in Hx. congruence.
  - rewrite (save_unfold _ _ _ _ _ _ Hr) in Hx. cbv zeta in Hx.
    set (p := default _ _) in Hx.
    assert (Hs : heap_step folder h (<[r := set_filepath o p]> h)).
    { eapply heap_step_insert; [exact Hr|apply obj_step_bind]. }
    destruct (out_result (save_children _ _ _)) as [locs|y] eqn:Hres.
    + destruct (Ht r o e p (save_data (fields o) locs) Hr) as [text Htext].
      rewrite Htext in Hx. done.
    + simpl in Hx. injection Hx as ->.
      eapply save_children_error_kind;
        [exact IH|by eapply closed_step|by eapply serializers_total_step
        | |exact Hres].
      intros name c Hin. eapply is_Some_step; [exact Hs|].
      apply (Hc r c). by exists o, name.
Qed.

Lemma save_children_not_CycleError f :
  (∀ c h, out_result (f c h) ≠ Err CycleError) →
  ∀ fs h, out_result (save_children f fs h) ≠ Err CycleError.
Proof.
  intros Hf. induction fs as [|[name [v|c]] fs IH]; intros h; simpl.
  - done.
  - apply IH.
  - destruct (out_result (f c h)) as [loc|x] eqn:Hres; simpl.
    + specialize (IH (out_heap (f c h))).
      destruct (out_result (save_children f fs _)); [done|congruence].
    + intros Heq. apply (Hf c h). congruence.
Qed.

(** No path through [save] raises [CycleError]. *)
Lemma save_not_CycleError fuel e folder :
  ∀ r h, out_result (save fuel e folder r h) ≠ Err CycleError.
Proof.
  induction fuel as [|fuel IH]; intros r h; [done|].
  destruct (h !! r) as [o|] eqn:Hr; [|by simpl; rewrite Hr].
  rewrite (save_unfold _ _ _ _ _ _ Hr). cbv zeta.
  pose proof (save_children_not_CycleError (save fuel e folder) IH
                (fields o)
                (<[r := set_filepath o
                     (default (joinpath folder (_generate_name (cls o)))
                              (filepath o))]> h)) as Hch.
  destruct (out_result (save_children _ _ _)) as [locs|x]; simpl.
  - by destruct (_get_serializer _ _ _ _).
  - congruence.
Qed.

(** C5 (as the code has it).  [save] has no cycle detection.  On an entity
    from which a reference cycle is reachable it returns no location,
    whatever depth the interpreter allows, and the exception is never
    [CycleError]: in a store without dangling references whose serializers
    render, it is the [RecursionError] of the exhausted call stack. *)
Theorem save_on_cycle_exhausts_stack fuel e folder r h :
  reaches_cycle h r →
  ∃ x, out_result (save fuel e folder r h) = Err x ∧ x ≠ CycleError ∧
       (closed h → is_Some (h !! r) → serializers_total h →
        x = RecursionError).
Proof.
  intros Hcyc.
  pose proof (save_err fuel e folder r h
                (reaches_cycle_unbounded h r Hcyc fuel)) as Hno.
  pose proof (save_not_CycleError fuel e folder r h) as Hnc.
  destruct (out_result (save fuel e folder r h)) as [loc|x] eqn:Hres;
    [done|].
  exists x. split; [done|]. split; [congruence|].
  intros Hc Hr Ht. eapply save_error_kind; eauto.
Qed.

Lemma cyclic_heap_reaches_cycle : reaches_cycle cyclic_heap 0.
Proof.
  exists 0. split; [apply rtc_refl|].
  apply tc_l with 1; [|apply tc_once].
  - eexists _, "partner". split; [reflexivity|]. set_solver.
  - eexists _, "partner". split; [reflexivity|]. set_solver.
Qed.

Lemma save_on_cycle_exhausts_stack_witness :
  reaches_cycle cyclic_heap 0 ∧
  ∃ x, out_result (save 1000 sample_env "/out" 0 cyclic_heap) = Err x ∧
       x ≠ CycleError.
Proof.
  split; [exact cyclic_heap_reaches_cycle|].
  destruct (save_on_cycle_exhausts_stack 1000 sample_env "/out" 0
              cyclic_heap cyclic_heap_reaches_cycle) as (x & Hx & Hne & _).
  exists x. split; [exact Hx|exact Hne].
Defined.

(** C5, the claim as stated fails: with the recursion limit of the
    interpreter, saving the first of two models that hold each other ends
    in [RecursionError], not [CycleError], and the file of the leaf it
    declares before its partner has been written by then. *)
Lemma cycle_is_not_detected :
  out_result (save 1000 sample_env "/out" 0 cyclic_heap)
  = Err RecursionError ∧
  (Err RecursionError : result string) ≠ Err CycleError ∧
  head (out_writes (save 1000 sample_env "/out" 0 cyclic_heap))
  = Some ("/out/notes.test", "").
Proof.
  split; [vm_compute; reflexivity|]. split; [discriminate|].
  vm_compute. reflexivity.
Qed.

(** ** The frame of [save] *)

Lemma save_binds_location fuel e folder r h o :
  h !! r = Some o →
  ∃ o', out_heap (save (S fuel) e folder r h) !! r = Some o' ∧
        cls o' = cls o ∧ fields o' = fields o ∧
        filepath o' = Some (default (joinpath folder (_generate_name (cls o)))
                                    (filepath o)).
Proof.
  intros Hr. rewrite (save_heap _ _ _ _ _ _ Hr).
  set (p := default _ _).
  pose proof (save_children_step folder (save fuel e folder)
                (save_step fuel e folder) (fields o)
                (<[r := set_filepath o p]> h) r) as Hs.
  rewrite lookup_insert_eq in Hs.
  inversion Hs as [? o' (Hc & Hf & Hp) Ho Ho'|]; subst.
  exists o'. split; [done|]. split; [done|]. split; [done|].
  destruct Hp as [Hp|[Hn _]]; [|done]. by rewrite Hp.
Qed.

(** The location [save] returns is the bound location of the entity,
    resolved. *)
Lemma save_returns_resolved fuel e folder r h loc :
  out_result (save fuel e folder r h) = Ok loc →
  resolved e (out_heap (save fuel e folder r h)) r = Some loc.
Proof.
  intros Hres. destruct fuel as [|fuel]; [done|].
  destruct (h !! r) as [o|] eqn:Hr; [|by simpl in Hres; rewrite Hr in Hres].
  destruct (save_binds_location fuel e folder r h o Hr)
    as (o' & Ho' & _ & _ & Hp).
  unfold resolved. rewrite Ho'. simpl. rewrite Hp. simpl.
  rewrite (save_unfold _ _ _ _ _ _ Hr) in Hres. cbv zeta in Hres.
  destruct (out_result (save_children _ _ _)); [|done].
  destruct (_get_serializer _ _ _ _); [|done].
  simpl in Hres. by injection Hres as <-.
Qed.

(** C10.  After [save], the saved entity has its class and every field
    other than [filepath] as before; its [filepath] is the one it had, or,
    when it had none, the target folder joined with the default file name
    and extension of its format.  The same holds for every entity of the
    store: a nested model is held by reference and is itself changed only
    in an absent [filepath]. *)
Theorem save_changes_only_absent_filepath fuel e folder r h o :
  h !! r = Some o →
  (∃ o', out_heap (save (S fuel) e folder r h) !! r = Some o' ∧
         cls o' = cls o ∧ fields o' = fields o ∧
         filepath o' =
           Some (match filepath o with
                 | Some p => p
                 | None => joinpath folder (_filename (cls o) ++ _ext (cls o))
                 end)) ∧
  (∀ r' o1, h !! r' = Some o1 →
     ∃ o1', out_heap (save (S fuel) e folder r h) !! r' = Some o1' ∧
            cls o1' = cls o1 ∧ fields o1' = fields o1 ∧
            (filepath o1' = filepath o1 ∨
             (filepath o1 = None ∧
              filepath o1' = Some (joinpath folder
                                     (_filename (cls o1) ++ _ext (cls o1))))))
  ∧ (∀ r', h !! r' = None →
       out_heap (save (S fuel) e folder r h) !! r' = None).
Proof.
  intros Hr.
  pose proof (save_step (S fuel) e folder r h) as Hall.
  split; [|split].
  - destruct (save_binds_location fuel e folder r h o Hr)
      as (o' & Ho' & Hc & Hf & Hp).
    exists o'. split; [done|]. split; [done|]. split; [done|].
    rewrite Hp. unfold _generate_name. by destruct (filepath o).
  - intros r' o1 Hr'. specialize (Hall r'). rewrite Hr' in Hall.
    inversion Hall as [? o1' (Hc & Hf & Hp) Ho Ho'|]; subst.
    exists o1'. done.
  - intros r' Hr'. specialize (Hall r'). rewrite Hr' in Hall.
    by inversion Hall.
Qed.

Lemma save_changes_only_absent_filepath_witness :
  ∃ o', out_heap (save 3 sample_env "/out" 0 family_heap) !! 0 = Some o' ∧
        fields o' = [ ("title", Plain (PStr "rain"));
                      ("left", Nested 1); ("right", Nested 2) ] ∧
        filepath o' = Some "/out/root.test".
Proof.
  destruct (save_changes_only_absent_filepath 2 sample_env "/out" 0
              family_heap _ eq_refl) as ((o' & Ho & _ & Hf & Hp) & _).
  exists o'. split; [exact Ho|]. split; [exact Hf|exact Hp].
Defined.

(** ** Saving again *)

Lemma set_filepath_bound o p : filepath o = Some p → set_filepath o p = o.
Proof. destruct o as [c f fs]. simpl. by intros ->. Qed.

Lemma same_rendering_extends h h' e1 e2 :
  extends h h' → same_rendering h e1 e2 → same_rendering h' e1 e2.
Proof.
  intros Hx Hs r o' p data Hr. specialize (Hx r). rewrite Hr in Hx.
  inversion Hx as [o ? (Hc & _) Ho|]; subst. rewrite Hc. eapply Hs; eauto.
Qed.

Lemma still_renders_extends h h' e1 e2 :
  extends h h' → still_renders h e1 e2 → still_renders h' e1 e2.
Proof.
  intros Hx Hs r o' p data Hr. specialize (Hx r). rewrite Hr in Hx.
  inversion Hx as [o ? (Hc & _) Ho|]; subst. rewrite Hc. eapply Hs; eauto.
Qed.

Section again.
Variables (e1 e2 : env) (folder : string) (h' : gmap nat obj).
Hypothesis Hcwd : cwd e2 = cwd e1.
Hypothesis Hrenders : still_renders h' e1 e2.

Lemma save_children_again fuel
    (IH : ∀ r h, is_ok (out_result (save fuel e1 folder r h)) = true →
            extends (out_heap (save fuel e1 folder r h)) h' →
            repeats e1 e2 h' (save fuel e1 folder r h) (save fuel e2 folder r h')) :
  ∀ fs h,
    is_ok (out_result (save_children (save fuel e1 folder) fs h)) = true →
    extends (out_heap (save_children (save fuel e1 folder) fs h)) h' →
    repeats e1 e2 h' (save_children (save fuel e1 folder) fs h)
            (save_children (save fuel e2 folder) fs h').
Proof.
  induction fs as [|[name [v|c]] fs IHfs]; intros h Hok Hx; simpl in *.
  - repeat split; auto.
  - by apply IHfs.
  - pose proof (save_children_step folder (save fuel e1 folder)
                  (save_step fuel e1 folder) fs
                  (out_heap (save fuel e1 folder c h))) as Hs.
    destruct (out_result (save fuel e1 folder c h)) as [loc|x] eqn:Hres;
      [|done].
    simpl in Hok, Hx.
    destruct (IH c h) as (Hr2 & Hh2 & Hw2 & Hsame).
    { by rewrite Hres. }
    { eapply extends_trans; [|exact Hx]. by eapply heap_step_extends. }
    rewrite Hres in Hr2. rewrite Hr2, Hh2. simpl.
    destruct (IHfs (out_heap (save fuel e1 folder c h)))
      as (Hr3 & Hh3 & Hw3 & Hsame3).
    { by destruct (out_result (save_children _ _ _)). }
    { exact Hx. }
    unfold repeats. simpl.
    split; [by rewrite Hr3|]. split; [exact Hh3|].
    split; [by rewrite !map_app, Hw2, Hw3|].
    intros Hsr. by rewrite Hsame, Hsame3.
Qed.

Lemma save_again fuel :
  ∀ r h, is_ok (out_result (save fuel e1 folder r h)) = true →
    extends (out_heap (save fuel e1 folder r h)) h' →
    repeats e1 e2 h' (save fuel e1 folder r h) (save fuel e2 folder r h').
Proof.
  induction fuel as [|fuel IH]; intros r h Hok Hx; [done|].
  destruct (h !! r) as [o|] eqn:Hr; [|by simpl in Hok; rewrite Hr in Hok].
  rewrite (save_heap _ _ _ _ _ _ Hr) in Hx.
  rewrite (save_unfold _ _ _ _ _ _ Hr) in Hok |- *. cbv zeta in Hok |- *.
  set (p := default _ _) in *.
  set (h1 := <[r := set_filepath o p]> h) in *.
  (* the entity in the store the second call starts from *)
  pose proof (save_children_step folder (save fuel e1 folder)
                (save_step fuel e1 folder) (fields o) h1 r) as Hs.
  unfold h1 in Hs at 1. rewrite lookup_insert_eq in Hs.
  inversion Hs as [? oH (HcH & HfH & HpH) Ho HoH|]; subst.
  pose proof (Hx r) as Hxr. rewrite <- HoH in Hxr.
  inversion Hxr as [? o' (Hc' & Hf' & Hp') Ho2 Hr'|]; subst.
  symmetry in Hr'.
  assert (Hbound : filepath o' = Some p).
  { apply Hp'. destruct HpH as [->|[Hn _]]; done. }
  simpl in HcH, HfH.
  assert (Hcls : cls o' = cls o) by congruence.
  assert (Hfields : fields o' = fields o) by congruence.
  rewrite (save_unfold _ _ _ _ _ _ Hr'). cbv zeta.
  rewrite Hbound. simpl default.
  rewrite (set_filepath_bound _ _ Hbound), (insert_id _ _ _ Hr').
  rewrite Hcls, Hfields.
  destruct (save_children_again fuel IH (fields o) h1)
    as (Hr2 & Hh2 & Hw2 & Hsame).
  { by destruct (out_result (save_children _ _ h1)). }
  { exact Hx. }
  destruct (out_result (save_children (save fuel e1 folder) _ h1))
    as [locs|x] eqn:Hres1; [|done].
  rewrite Hr2.
  destruct (_get_serializer (cls o) e1 p (save_data (fields o) locs))
    as [text1|] eqn:Htext1; [|done].
  destruct (Hrenders r o' p (save_data (fields o) locs) Hr')
    as [text2 Htext2]; [by rewrite Hcls, Htext1|].
  rewrite Hcls in Htext2. rewrite Htext2.
  unfold repeats. simpl. split; [by rewrite Hcwd|]. split; [exact Hh2|].
  split; [by rewrite !map_app, Hw2, Hcwd|].
  intros Hsr. rewrite (Hsame Hsr), Hcwd. do 3 f_equal.
  specialize (Hsr r o' p (save_data (fields o) locs) Hr').
  rewrite Hcls in Hsr. congruence.
Qed.
End again.

Lemma apply_writes_snoc ws w disk :
  apply_writes (ws ++ [w]) disk = <[w.1 := w.2]> (apply_writes ws disk).
Proof. unfold apply_writes. by rewrite fold_left_app. Qed.

(** The content of a file after a trace: that of the last write to it. *)
Lemma apply_writes_lookup ws disk k :
  apply_writes ws disk !! k
  = match last (omap (λ w : string * string,
                        if bool_decide (w.1 = k) then Some w.2 else None) ws)
    with
    | Some text => Some text
    | None => disk !! k
    end.
Proof.
  induction ws as [|w ws IH] using rev_ind; [reflexivity|].
  rewrite apply_writes_snoc, omap_app. simpl.
  case_bool_decide as Hk.
  - rewrite last_snoc. subst k. by rewrite lookup_insert_eq.
  - rewrite app_nil_r, lookup_insert_ne by done. exact IH.
Qed.

Lemma apply_writes_twice ws disk :
  apply_writes ws (apply_writes ws disk) = apply_writes ws disk.
Proof.
  apply map_eq. intros k. rewrite !apply_writes_lookup.
  by destruct (last _).
Qed.

Section again_at_most.
Variables (e1 e2 : env) (folder : string) (h' : gmap nat obj).
Hypothesis Hcwd : cwd e2 = cwd e1.

Lemma save_children_again_at_most fuel
    (IH : ∀ r h, is_ok (out_result (save fuel e1 folder r h)) = true →
            extends (out_heap (save fuel e1 folder r h)) h' →
            repeats_or_fails h' (save fuel e1 folder r h)
              (save fuel e2 folder r h')) :
  ∀ fs h,
    is_ok (out_result (save_children (save fuel e1 folder) fs h)) = true →
    extends (out_heap (save_children (save fuel e1 folder) fs h)) h' →
    repeats_or_fails h' (save_children (save fuel e1 folder) fs h)
      (save_children (save fuel e2 folder) fs h').
Proof.
  induction fs as [|[name [v|c]] fs IHfs]; intros h Hok Hx; simpl in *.
  - split; auto.
  - by apply IHfs.
  - pose proof (save_children_step folder (save fuel e1 folder)
                  (save_step fuel e1 folder) fs
                  (out_heap (save fuel e1 folder c h))) as Hs.
    destruct (out_result (save fuel e1 folder c h)) as [loc|x] eqn:Hres;
      [|done].
    simpl in Hok, Hx.
    destruct (IH c h) as (Hh2 & Hr2).
    { by rewrite Hres. }
    { eapply extends_trans; [|exact Hx]. by eapply heap_step_extends. }
    rewrite Hres in Hr2. destruct Hr2 as [Hr2|Hr2]; rewrite Hr2; simpl.
    + rewrite Hh2.
      destruct (IHfs (out_heap (save fuel e1 folder c h))) as (Hh3 & Hr3).
      { by destruct (out_result (save_children _ _ _)). }
      { exact Hx. }
      split; [exact Hh3|]. simpl.
      destruct Hr3 as [Hr3|Hr3]; rewrite Hr3; [by left|by right].
    + split; [exact Hh2|by right].
Qed.

Lemma save_again_at_most fuel :
  ∀ r h, is_ok (out_result (save fuel e1 folder r h)) = true →
    extends (out_heap (save fuel e1 folder r h)) h' →
    repeats_or_fails h' (save fuel e1 folder r h) (save fuel e2 folder r h').
Proof.
  induction fuel as [|fuel IH]; intros r h Hok Hx; [done|].
  destruct (h !! r) as [o|] eqn:Hr; [|by simpl in Hok; rewrite Hr in Hok].
  rewrite (save_heap _ _ _ _ _ _ Hr) in Hx.
  rewrite (save_unfold _ _ _ _ _ _ Hr) in Hok |- *. cbv zeta in Hok |- *.
  set (p := default _ _) in *.
  set (h1 := <[r := set_filepath o p]> h) in *.
  pose proof (save_children_step folder (save fuel e1 folder)
                (save_step fuel e1 folder) (fields o) h1 r) as Hs.
  unfold h1 in Hs at 1. rewrite lookup_insert_eq in Hs.
  inversion Hs as [? oH (HcH & HfH & HpH) Ho HoH|]; subst.
  pose proof (Hx r) as Hxr. rewrite <- HoH in Hxr.
  inversion Hxr as [? o' (Hc' & Hf' & Hp') Ho2 Hr'|]; subst.
  symmetry in Hr'.
  assert (Hbound : filepath o' = Some p).
  { apply Hp'. destruct HpH as [->|[Hn _]]; done. }
  simpl in HcH, HfH.
  assert (Hcls : cls o' = cls o) by congruence.
  assert (Hfields : fields o' = fields o) by congruence.
  rewrite (save_unfold _ _ _ _ _ _ Hr'). cbv zeta.
  rewrite Hbound. simpl default.
  rewrite (set_filepath_bound _ _ Hbound), (insert_id _ _ _ Hr').
  rewrite Hcls, Hfields.
  destruct (save_children_again_at_most fuel IH (fields o) h1)
    as (Hh2 & Hr2).
  { by destruct (out_result (save_children _ _ h1)). }
  { exact Hx. }
  destruct (out_result (save_children (save fuel e1 folder) _ h1))
    as [locs|x] eqn:Hres1; [|done].
  destruct (_get_serializer (cls o) e1 p (save_data (fields o) locs))
    as [text1|] eqn:Htext1; [|done].
  destruct Hr2 as [Hr2|Hr2]; rewrite Hr2.
  - destruct (_get_serializer (cls o) e2 p (save_data (fields o) locs));
      (split; [exact Hh2|]); simpl; [left; by rewrite Hcwd|by right].
  - split; [exact Hh2|by right].
Qed.
End again_at_most.

(** C4 (as the code has it).  When [save] has returned a location, a
    second call with the same folder and working directory leaves the store
    as the first call left it, every location being bound by then, and
    returns no other location: it returns the same one, or a serializer
    raises.  When every serializer that rendered in the first call renders
    in the second, the second call returns the same location and writes the
    same files in the same order; the texts are the same when the
    serializers render the same text in both calls. *)
Theorem save_twice_same_location fuel e1 e2 folder r h loc :
  cwd e2 = cwd e1 →
  out_result (save fuel e1 folder r h) = Ok loc →
  let first := save fuel e1 folder r h in
  let second := save fuel e2 folder r (out_heap first) in
  resolved e1 (out_heap first) r = Some loc ∧
  out_heap second = out_heap first ∧
  (out_result second = Ok loc ∨ out_result second = Err SerializeError) ∧
  (still_renders h e1 e2 →
     out_result second = Ok loc ∧
     map fst (out_writes second) = map fst (out_writes first) ∧
     (same_rendering h e1 e2 →
        out_writes second = out_writes first ∧
        ∀ disk, apply_writes (out_writes second)
                  (apply_writes (out_writes first) disk)
                = apply_writes (out_writes first) disk)).
Proof.
  intros Hcwd Hres. cbv zeta.
  pose proof (save_step fuel e1 folder r h) as Hs.
  split; [by apply save_returns_resolved|].
  destruct (save_again_at_most e1 e2 folder
              (out_heap (save fuel e1 folder r h)) Hcwd fuel r h
              ltac:(by rewrite Hres) (extends_refl _)) as (Hh & Hr).
  split; [exact Hh|]. split; [by rewrite <- Hres|].
  intros Ht.
  destruct (save_again e1 e2 folder (out_heap (save fuel e1 folder r h))
              Hcwd (still_renders_extends _ _ _ _
                      (heap_step_extends _ _ _ Hs) Ht) fuel r h
              ltac:(by rewrite Hres) (extends_refl _))
    as (Hr2 & _ & Hw2 & Hsame).
  split; [congruence|]. split; [done|]. intros Hsr.
  assert (Heq : out_writes (save fuel e2 folder r
                  (out_heap (save fuel e1 folder r h)))
                = out_writes (save fuel e1 folder r h)).
  { apply Hsame. eapply same_rendering_extends; [|exact Hsr].
    by eapply heap_step_extends. }
  split; [exact Heq|]. intros disk. rewrite Heq. apply apply_writes_twice.
Qed.

(** Whether the [.bui] serializer renders a mapping does not depend on the
    clock. *)
Lemma write_bui_file_still_renders e1 e2 p data :
  is_Some (write_bui_file e1 p data) → is_Some (write_bui_file e2 p data).
Proof.
  unfold write_bui_file, BuiSerializer_serialize.
  generalize (<["filepath" := PPath p]> data). intros m H.
  repeat match goal with
         | H : is_Some (mbind _ ?x) |- _ =>
             destruct x; simpl in *; [|by destruct H]
         end.
  eauto.
Qed.

Lemma bui_heap_still_renders e1 e2 : still_renders bui_heap e1 e2.
Proof.
  intros r o p data Hr. unfold bui_heap in Hr.
  apply lookup_singleton_Some in Hr as [_ <-].
  apply write_bui_file_still_renders.
Qed.

Lemma save_twice_same_location_witness :
  out_result (save 2 sample_env "/out" 0 bui_heap) = Ok "/out/bui_file.bui" ∧
  out_result (save 2 later_env "/out" 0
                (out_heap (save 2 sample_env "/out" 0 bui_heap)))
  = Ok "/out/bui_file.bui" ∧
  map fst (out_writes (save 2 later_env "/out" 0
                         (out_heap (save 2 sample_env "/out" 0 bui_heap))))
  = map fst (out_writes (save 2 sample_env "/out" 0 bui_heap)).
Proof.
  assert (H1 : out_result (save 2 sample_env "/out" 0 bui_heap)
               = Ok "/out/bui_file.bui") by (vm_compute; reflexivity).
  destruct (save_twice_same_location 2 sample_env later_env "/out" 0
              bui_heap "/out/bui_file.bui" eq_refl H1) as (_ & _ & _ & H2).
  destruct (H2 (bui_heap_still_renders _ _)) as (H3 & Hw & _).
  split; [exact H1|]. split; [exact H3|exact Hw].
Defined.

(** C4, the claim as stated fails in its second half: the [.bui] model
    saved twice into the same folder, the clock one second further at the
    second call, is written to the same location with another text (the
    line of the date and time of construction differs). *)
Lemma resave_restamps_the_file :
  ∃ t1 t2,
    out_writes (save 2 sample_env "/out" 0 bui_heap)
    = [("/out/bui_file.bui", t1)] ∧
    out_writes (save 2 later_env "/out" 0
                  (out_heap (save 2 sample_env "/out" 0 bui_heap)))
    = [("/out/bui_file.bui", t2)] ∧
    t1 ≠ t2.
Proof.
  eexists _, _. split; [vm_compute; reflexivity|].
  split; [vm_compute; reflexivity|].
  intros H. apply (f_equal (String.get 86)) in H. vm_compute in H.
  discriminate.
Qed.

(** Why the second call is not promised a location: a serializer that
    rendered at the first call may raise at the second.  The store is still
    as the first call left it. *)
Example second_save_may_raise :
  out_result (save 2 sample_env "/out" 0 moody_heap) = Ok "/out/moody.test" ∧
  out_result (save 2 later_env "/out" 0
                (out_heap (save 2 sample_env "/out" 0 moody_heap)))
  = Err SerializeError ∧
  resolved later_env
    (out_heap (save 2 later_env "/out" 0
                 (out_heap (save 2 sample_env "/out" 0 moody_heap)))) 0
  = Some "/out/moody.test".
Proof. split; [|split]; vm_compute; reflexivity. Qed.

(** ** Nested models are saved first *)

Lemma resolved_step e folder h h' c loc :
  heap_step folder h h' → resolved e h c = Some loc →
  resolved e h' c = Some loc.
Proof.
  unfold resolved. intros Hs Hr. specialize (Hs c).
  destruct (h !! c) as [o|]; [|done]. simpl in Hr.
  inversion Hs as [? o' (_ & _ & Hp) Ho Ho'|]; subst. simpl.
  destruct (filepath o) as [p|]; [|done].
  destruct Hp as [->|[Hn _]]; done.
Qed.

Lemma save_last_write fuel e folder r h loc :
  out_result (save fuel e folder r h) = Ok loc →
  ∃ pre text,
    out_writes (save fuel e folder r h) = (pre ++ [(loc, text)])%list.
Proof.
  intros Hres. destruct fuel as [|fuel]; [done|].
  destruct (h !! r) as [o|] eqn:Hr; [|by simpl in Hres; rewrite Hr in Hres].
  rewrite (save_unfold _ _ _ _ _ _ Hr) in Hres |- *. cbv zeta in Hres |- *.
  destruct (out_result (save_children _ _ _)); [|done].
  destruct (_get_serializer _ _ _ _); [|done].
  simpl in Hres. injection Hres as <-. simpl. eauto.
Qed.

(** What the loop over the fields leaves behind: a location for every
    nested file-backed field, in declaration order, each the resolved
    location of the nested model and each written. *)
Lemma save_children_locs fuel e folder :
  ∀ fs h locs,
    out_result (save_children (save fuel e folder) fs h) = Ok locs →
    Forall2 (λ nc nl,
       nl.1 = nc.1 ∧
       resolved e (out_heap (save_children (save fuel e folder) fs h)) nc.2
       = Some nl.2 ∧
       ∃ text, (nl.2, text)
               ∈ out_writes (save_children (save fuel e folder) fs h))
      (nested_fields fs) locs.
Proof.
  induction fs as [|[name [v|c]] fs IH]; intros h locs Hres; simpl in *.
  - injection Hres as <-. constructor.
  - by apply IH.
  - pose proof (save_children_step folder (save fuel e folder)
                  (save_step fuel e folder) fs
                  (out_heap (save fuel e folder c h))) as Hs.
    destruct (out_result (save fuel e folder c h)) as [loc|x] eqn:Hc;
      [|done].
    simpl in *.
    destruct (out_result (save_children _ fs _)) as [locs'|x] eqn:Hrest;
      [|done].
    injection Hres as <-. constructor.
    + split; [done|]. split.
      * eapply resolved_step; [exact Hs|]. by apply save_returns_resolved.
      * destruct (save_last_write _ _ _ _ _ _ Hc) as (pre & text & ->).
        exists text. set_solver.
    + eapply Forall2_impl; [by apply IH|].
      intros nc nl (Hn & Hr & text & Hw). split; [done|]. split; [done|].
      exists text. set_solver.
Qed.

Lemma filemodel_dict_snoc locs nl :
  filemodel_dict (locs ++ [nl]) = <[nl.1 := PStr nl.2]> (filemodel_dict locs).
Proof. unfold filemodel_dict. by rewrite fold_left_app. Qed.

Lemma filemodel_dict_lookup locs name loc :
  NoDup (map fst locs) → (name, loc) ∈ locs →
  filemodel_dict locs !! name = Some (PStr loc).
Proof.
  induction locs as [|nl locs IH] using rev_ind; intros Hnd Hin;
    [by apply elem_of_nil in Hin|].
  rewrite filemodel_dict_snoc. rewrite map_app in Hnd.
  apply NoDup_app in Hnd as (Hnd & Hfresh & _).
  apply elem_of_app in Hin as [Hin|Hin].
  - rewrite lookup_insert_ne; [by apply IH|].
    intros Heq. apply (Hfresh name).
    + apply list_elem_of_fmap. by exists (name, loc).
    + simpl. rewrite Heq. set_solver.
  - apply list_elem_of_singleton in Hin as <-. simpl.
    by rewrite lookup_insert_eq.
Qed.

Lemma nested_fields_names fs name c :
  (name, c) ∈ nested_fields fs → name ∈ map fst fs.
Proof.
  induction fs as [|[n [v|c']] fs IH]; simpl; intros Hin.
  - by apply elem_of_nil in Hin.
  - right. by apply IH.
  - apply elem_of_cons in Hin as [Hin|Hin].
    + injection Hin as -> ->. by left.
    + right. by apply IH.
Qed.

Lemma nested_fields_NoDup fs :
  NoDup (map fst fs) → NoDup (map fst (nested_fields fs)).
Proof.
  induction fs as [|[n [v|c]] fs IH]; simpl; intros Hnd.
  - constructor.
  - apply NoDup_cons in Hnd as [_ Hnd]. by apply IH.
  - apply NoDup_cons in Hnd as [Hn Hnd]. apply NoDup_cons. split; [|by apply IH].
    intros Hin. apply Hn. apply list_elem_of_fmap in Hin as ([n' c'] & -> & Hin).
    by eapply nested_fields_names.
Qed.

Lemma nested_fields_elem fs name c :
  (name, Nested c) ∈ fs → (name, c) ∈ nested_fields fs.
Proof.
  induction fs as [|[n [v|c']] fs IH]; simpl; intros Hin.
  - by apply elem_of_nil in Hin.
  - apply elem_of_cons in Hin as [Hin|Hin]; [done|]. by apply IH.
  - apply elem_of_cons in Hin as [Hin|Hin].
    + injection Hin as -> ->. by left.
    + right. by apply IH.
Qed.

Lemma nested_names_elem fs name c :
  (name, Nested c) ∈ fs → name ∈ nested_names fs.
Proof.
  induction fs as [|[n [v|c']] fs IH]; simpl; intros Hin.
  - by apply elem_of_nil in Hin.
  - apply elem_of_cons in Hin as [Hin|Hin]; [done|]. by apply IH.
  - apply elem_of_cons in Hin as [Hin|Hin].
    + injection Hin as -> ->. by left.
    + right. by apply IH.
Qed.

(** An excluded name has no entry in [self.dict(...)]. *)
Lemma dict_excluded exclude fs name :
  name ∈ exclude → dict exclude fs !! name = None.
Proof.
  intros Hex. induction fs as [|[n [v|c]] fs IH]; simpl; [done| |done].
  case_bool_decide as Hn; [done|].
  destruct v; try done;
    (rewrite lookup_insert_ne; [done|by intros ->]).
Qed.

Lemma save_children_plain f fs h :
  nested_fields fs = [] → save_children f fs h = Outcome h [] (Ok []).
Proof.
  induction fs as [|[n [v|c]] fs IH]; simpl; intros Hn; [done| |done].
  by apply IH.
Qed.

Lemma save_children_next f fs n c rest :
  nested_fields fs = (n, c) :: rest →
  ∃ fs', nested_fields fs' = rest ∧
         ∀ h, save_children f fs h = save_children f ((n, Nested c) :: fs') h.
Proof.
  induction fs as [|[n' [v|c']] fs IH]; simpl; intros Hn; [done| |].
  - by apply IH.
  - injection Hn as -> -> <-. by exists fs.
Qed.

(** A model without nested models writes its own file and nothing else. *)
Lemma save_leaf fuel e folder r h loc :
  leaf h r → out_result (save fuel e folder r h) = Ok loc →
  ∃ text, out_writes (save fuel e folder r h) = [(loc, text)].
Proof.
  intros (o & Hr & Hleaf) Hres. destruct fuel as [|fuel]; [done|].
  rewrite (save_unfold _ _ _ _ _ _ Hr) in Hres |- *. cbv zeta in Hres |- *.
  rewrite (save_children_plain _ _ _ Hleaf) in Hres |- *. simpl in *.
  destruct (_get_serializer _ _ _ _); [|done].
  simpl in Hres. injection Hres as <-. simpl. eauto.
Qed.

Lemma leaf_step folder h h' r : heap_step folder h h' → leaf h r → leaf h' r.
Proof.
  intros Hs (o & Hr & Hleaf). specialize (Hs r). rewrite Hr in Hs.
  inversion Hs as [? o' (_ & Hf & _) Ho Ho'|]; subst.
  exists o'. split; [done|]. by rewrite Hf.
Qed.

Lemma three_files (l1 l2 l3 t1 t2 t3 : string) :
  l1 ≠ l2 → l1 ≠ l3 → l2 ≠ l3 →
  size (apply_writes [(l1, t1); (l2, t2); (l3, t3)] ∅) = 3.
Proof.
  intros H12 H13 H23. unfold apply_writes. simpl.
  rewrite !map_size_insert_None, map_size_empty; [done|..].
  - apply lookup_empty.
  - rewrite lookup_insert_ne by done. apply lookup_empty.
  - rewrite !lookup_insert_ne by done. apply lookup_empty.
Qed.

Lemma locs_names (P : string * nat → string * string → Prop) ncs locs :
  Forall2 (λ nc nl, nl.1 = nc.1 ∧ P nc nl) ncs locs →
  map fst locs = map fst ncs.
Proof.
  induction 1 as [|nc nl ncs locs [Hn _] _ IH]; simpl; [done|].
  by rewrite Hn, IH.
Qed.

(** C8 (as the code has it).  When [save] returns, the last write is the
    file of the entity itself, at the returned location, with the text the
    serializer renders for the outgoing mapping.  Every nested file-backed
    field was saved before, into the same folder: its model has a resolved
    location, its file is among the earlier writes, and the outgoing
    mapping holds that location, as text, under the name of the field,
    which the flattening of the other fields leaves out.  With exactly two
    nested fields, both without nested models of their own, there are
    three writes, the two children in declaration order, then the root;
    they are three files when the three locations differ. *)
Theorem save_nested_first fuel e folder r h o loc :
  h !! r = Some o → NoDup (map fst (fields o)) →
  out_result (save (S fuel) e folder r h) = Ok loc →
  ∃ pre locs text p,
    out_writes (save (S fuel) e folder r h) = (pre ++ [(loc, text)])%list ∧
    loc = absolute (cwd e) p ∧
    _get_serializer (cls o) e p (save_data (fields o) locs) = Some text ∧
    (∀ name c, (name, Nested c) ∈ fields o →
       ∃ loc_c text_c child,
         h !! c = Some child ∧
         loc_c = absolute (cwd e)
                   (default (joinpath folder (_generate_name (cls child)))
                            (filepath child)) ∧
         resolved e (out_heap (save (S fuel) e folder r h)) c = Some loc_c ∧
         (loc_c, text_c) ∈ pre ∧
         save_data (fields o) locs !! name = Some (PStr loc_c) ∧
         dict ("filepath" :: nested_names (fields o)) (fields o) !! name
         = None) ∧
    (∀ n1 c1 n2 c2,
       nested_fields (fields o) = [(n1, c1); (n2, c2)] →
       leaf h c1 → leaf h c2 →
       ∃ l1 t1 l2 t2,
         out_writes (save (S fuel) e folder r h)
         = [(l1, t1); (l2, t2); (loc, text)] ∧
         save_data (fields o) locs !! n1 = Some (PStr l1) ∧
         save_data (fields o) locs !! n2 = Some (PStr l2) ∧
         (l1 ≠ l2 → l1 ≠ loc → l2 ≠ loc →
          size (apply_writes (out_writes (save (S fuel) e folder r h)) ∅)
          = 3)).
Proof.
  intros Hr Hnd Hres.
  pose proof (save_step (S fuel) e folder r h) as Hwhole.
  rewrite (save_heap _ _ _ _ _ _ Hr) in Hwhole |- *.
  rewrite (save_unfold _ _ _ _ _ _ Hr) in Hres |- *. cbv zeta in Hres |- *.
  set (p := default _ _) in *.
  set (h1 := <[r := set_filepath o p]> h) in *.
  assert (Hs1 : heap_step folder h h1).
  { eapply heap_step_insert; [exact Hr|apply obj_step_bind]. }
  destruct (out_result (save_children (save fuel e folder) (fields o) h1))
    as [locs|x] eqn:Hch; [|done].
  destruct (_get_serializer (cls o) e p (save_data (fields o) locs))
    as [text|] eqn:Htext; [|done].
  simpl in Hres. injection Hres as <-. simpl.
  pose proof (save_children_locs fuel e folder (fields o) h1 locs Hch)
    as Hlocs.
  assert (Hdata : ∀ name c, (name, Nested c) ∈ fields o →
            ∃ loc_c text_c,
              resolved e (out_heap (save_children (save fuel e folder)
                                      (fields o) h1)) c = Some loc_c ∧
              (loc_c, text_c) ∈ out_writes (save_children
                                   (save fuel e folder) (fields o) h1) ∧
              save_data (fields o) locs !! name = Some (PStr loc_c)).
  { intros name c Hin. apply nested_fields_elem in Hin.
    apply list_elem_of_lookup in Hin as [i Hi].
    destruct (Forall2_lookup_l _ _ _ _ _ Hlocs Hi)
      as ([name' loc_c] & Hi' & Hn & Hres & text_c & Hw).
    simpl in *. subst name'. exists loc_c, text_c.
    split; [done|]. split; [done|].
    apply lookup_union_Some_l. apply filemodel_dict_lookup.
    - rewrite (locs_names _ _ _ Hlocs). by apply nested_fields_NoDup.
    - apply list_elem_of_lookup. eauto. }
  exists (out_writes (save_children (save fuel e folder) (fields o) h1)),
    locs, text, p.
  split; [done|]. split; [done|]. split; [done|]. split.
  - intros name c Hin.
    destruct (Hdata name c Hin) as (loc_c & text_c & Hres & Hw & Hd).
    pose proof (Hwhole c) as Hc. unfold resolved in Hres.
    destruct (out_heap _ !! c) as [child'|] eqn:Hc'; [|done].
    inversion Hc as [child ? (Hcls & _ & Hp) Hchild|]; subst.
    exists loc_c, text_c, child. split; [done|]. split.
    + simpl in Hres. destruct (filepath child') as [pc|] eqn:Hpc; [|done].
      simpl in Hres. injection Hres as <-.
      destruct Hp as [Hp|[Hn Hp]].
      * by rewrite <- Hp.
      * rewrite Hn. simpl. congruence.
    + split; [unfold resolved; by rewrite Hc'|]. split; [done|].
      split; [done|]. apply dict_excluded. right.
      by eapply nested_names_elem.
  - intros n1 c1 n2 c2 Hnested Hleaf1 Hleaf2.
    pose proof (nested_fields_NoDup _ Hnd) as Hnd2.
    rewrite Hnested in Hnd2. simpl in Hnd2.
    destruct (save_children_next (save fuel e folder) _ _ _ _ Hnested)
      as (fs1 & Hnested1 & Heq1).
    destruct (save_children_next (save fuel e folder) _ _ _ _ Hnested1)
      as (fs2 & Hnested2 & Heq2).
    rewrite Heq1 in Hch, Hlocs |- *. simpl in Hch, Hlocs |- *.
    pose proof (save_step fuel e folder c1 h1) as Hs2.
    destruct (out_result (save fuel e folder c1 h1)) as [l1'|x] eqn:Hc1;
      [|done].
    simpl in Hch |- *.
    rewrite Heq2 in Hch |- *. simpl in Hch |- *.
    destruct (out_result (save fuel e folder c2 _)) as [l2'|x] eqn:Hc2;
      [|done].
    simpl in Hch |- *.
    rewrite (save_children_plain _ _ _ Hnested2) in Hch |- *.
    simpl in Hch |- *. injection Hch as <-.
    destruct (save_leaf _ _ _ _ _ _ (leaf_step _ _ _ _ Hs1 Hleaf1) Hc1)
      as [t1 ->].
    destruct (save_leaf _ _ _ _ _ _
                (leaf_step _ _ _ _ (heap_step_trans _ _ _ _ Hs1 Hs2) Hleaf2)
                Hc2) as [t2 ->].
    simpl. exists l1', t1, l2', t2. split; [done|].
    split; [|split].
    + apply lookup_union_Some_l, filemodel_dict_lookup; [done|set_solver].
    + apply lookup_union_Some_l, filemodel_dict_lookup; [done|set_solver].
    + intros H12 H1 H2. by apply three_files.
Qed.

Lemma family_leaf_left : leaf family_heap 1.
Proof. eexists. split; reflexivity. Qed.

Lemma family_leaf_right : leaf family_heap 2.
Proof. eexists. split; reflexivity. Qed.

Lemma save_nested_first_witness :
  ∃ l1 t1 l2 t2 text,
    out_writes (save 3 sample_env "/out" 0 family_heap)
    = [(l1, t1); (l2, t2); ("/out/root.test", text)].
Proof.
  assert (Hnd : NoDup (map fst [ ("title", Plain (PStr "rain"));
                                 ("left", Nested 1); ("right", Nested 2) ])).
  { by apply (bool_decide_unpack _); vm_compute. }
  assert (Hres : out_result (save 3 sample_env "/out" 0 family_heap)
                 = Ok "/out/root.test") by (vm_compute; reflexivity).
  destruct (save_nested_first 2 sample_env "/out" 0 family_heap _
              "/out/root.test" eq_refl Hnd Hres)
    as (pre & locs & text & p & _ & _ & _ & _ & Htwo).
  destruct (Htwo "left" 1 "right" 2 eq_refl family_leaf_left
              family_leaf_right) as (l1 & t1 & l2 & t2 & Hw & _).
  exists l1, t1, l2, t2, text. exact Hw.
Defined.

(** The three files of the family, as they are written: the file of the
    root holds the locations of its two children. *)
Example family_files :
  out_writes (save 3 sample_env "/out" 0 family_heap)
  = [ ("/out/left.test", "depth=3");
      ("/out/right.test", "");
      ("/out/root.test",
       "right=/out/right.test" ++ nl ++ "left=/out/left.test" ++ nl
         ++ "title=rain") ].
Proof. vm_compute. reflexivity. Qed.

(** C8, the claim as stated fails in its count of files: two unbound
    children of one format resolve to the same default location, the second
    write replaces the first, and the three writes leave two files. *)
Lemma twins_share_one_file :
  out_result (save 3 sample_env "/out" 0 twins_heap) = Ok "/out/root.test" ∧
  map fst (out_writes (save 3 sample_env "/out" 0 twins_heap))
  = ["/out/child.test"; "/out/child.test"; "/out/root.test"] ∧
  size (apply_writes (out_writes (save 3 sample_env "/out" 0 twins_heap)) ∅)
  = 2 ∧
  size (apply_writes (out_writes (save 3 sample_env "/out" 0 twins_heap)) ∅)
  ≠ 3.
Proof.
  split; [vm_compute; reflexivity|]. split; [vm_compute; reflexivity|].
  split; [vm_compute; reflexivity|]. vm_compute. discriminate.
Qed.

(** ** Text *)

Lemma string_app_cons c (s t : string) : String c s ++ t = String c (s ++ t).
Proof. reflexivity. Qed.

(** ** The duration of an event *)

Lemma decompose_seconds_inverse t :
  reconstruct_seconds (decompose_seconds t) = t.
Proof.
  unfold reconstruct_seconds, decompose_seconds.
  pose proof (Z.div_mod t 86400 ltac:(lia)).
  pose proof (Z.div_mod (t mod 86400) 3600 ltac:(lia)).
  pose proof (Z.div_mod ((t mod 86400) mod 3600) 60 ltac:(lia)).
  lia.
Qed.

(** C6.  Decomposing a number of seconds that is not negative into days,
    hours, minutes and seconds and reconstructing gives the number back; the
    hours, minutes and seconds stay below 24, 60 and 60; four days and 2000
    seconds decompose to (4, 0, 33, 20), printed as ["4 0 33 20"]. *)
Theorem decompose_then_reconstruct :
  (∀ t, (0 ≤ t)%Z →
     reconstruct_seconds (decompose_seconds t) = t ∧
     let '(days, hours, minutes, seconds) := decompose_seconds t in
     (0 ≤ days ∧ 0 ≤ hours < 24 ∧ 0 ≤ minutes < 60 ∧ 0 ≤ seconds < 60)%Z) ∧
  decompose_seconds (4 * 86400 + 2000) = (4, 0, 33, 20)%Z ∧
  serialize_timeseries_length (4 * 86400 + 2000) = "4 0 33 20".
Proof.
  split; [|split; reflexivity].
  intros t Ht. split; [apply decompose_seconds_inverse|].
  unfold decompose_seconds.
  pose proof (Z.mod_pos_bound t 86400 ltac:(lia)).
  pose proof (Z.mod_pos_bound (t mod 86400) 3600 ltac:(lia)).
  pose proof (Z.mod_pos_bound ((t mod 86400) mod 3600) 60 ltac:(lia)).
  repeat split; try lia.
  - apply Z.div_pos; lia.
  - apply Z.div_pos; lia.
  - apply Z.div_lt_upper_bound; lia.
  - apply Z.div_pos; lia.
  - apply Z.div_lt_upper_bound; lia.
Qed.

Lemma decompose_then_reconstruct_witness :
  reconstruct_seconds (decompose_seconds 97200) = 97200%Z.
Proof.
  exact (proj1 (proj1 decompose_then_reconstruct 97200%Z ltac:(lia))).
Defined.

(** The parser reads the four duration tokens back to the elapsed time
    they were decomposed from. *)
Lemma timedelta_decompose t :
  let '(days, hours, minutes, seconds) := decompose_seconds t in
  timedelta days hours minutes seconds = t.
Proof. apply decompose_seconds_inverse. Qed.

(** ** The parser *)

Lemma is_text_strs l : is_text (PList (map PStr l)) = true.
Proof. induction l as [|s l IH]; simpl in *; [done|exact IH]. Qed.

Lemma is_text_rows (f : string → list string) rows :
  is_text (PList (map (λ row, PList (map PStr (f row))) rows)) = true.
Proof.
  induction rows as [|row rows IH]; [done|].
  change (is_text (PList (map PStr (f row)))
          && is_text (PList (map (λ row, PList (map PStr (f row))) rows))
          = true).
  by rewrite is_text_strs, IH.
Qed.

Lemma parse_event_lines_shape block ev :
  parse_event_lines block = Ok ev → event_shape ev.
Proof.
  unfold parse_event_lines. destruct block as [|hd rows]; [done|].
  destruct (header_ints hd) as [zs|]; [|done].
  do 10 (destruct zs as [|? zs]; [done|]). destruct zs; [|done].
  destruct (valid_datetime _); [|done]. intros [= <-].
  eexists _, _, _. split; [reflexivity|]. apply is_text_rows.
Qed.

Lemma parse_events_shape blocks evs :
  parse_events blocks = Ok evs → Forall event_shape evs.
Proof.
  revert evs. induction blocks as [|b bs IH]; simpl; intros evs.
  - intros [= <-]. constructor.
  - destruct (parse_event_lines b) as [ev|x] eqn:Hb; [|done].
    destruct (parse_events bs) as [evs'|x]; [|done].
    intros [= <-]. constructor; [by eapply parse_event_lines_shape|].
    by apply IH.
Qed.

(** C3 (as the tests have it).  In the mapping the parser returns, the
    tokens of the four fixed lines and every observation are left as text;
    the ten header integers of an event are not: they are read into a
    [datetime] and a [timedelta]. *)
Theorem parser_keeps_text_except_event_header text m :
  parse_bui_text text = Ok m →
  (∀ k v, m !! k = Some v → k ≠ "precipitation_events" →
          is_text v = true) ∧
  ∃ evs,
    m !! "precipitation_events"
    = Some (PDict {[ "precipitation_event_list" := PList (map PDict evs) ]}) ∧
    Forall event_shape evs.
Proof.
  unfold parse_bui_text.
  destruct (tokenize_lines text) as [|l1 [|l2 [|l3 [|l4 rest]]]]; try done.
  destruct (single_int_token l1) as [ds|]; [|done].
  destruct (single_int_token l2) as [ns|]; [|done].
  destruct (two_int_tokens l4) as [[ne st]|]; [|done].
  destruct (split_blocks rest) as [[|] [|b bs]]; try done.
  destruct (parse_events (b :: bs)) as [evs|x] eqn:Hevs; [|done].
  cbn [rbind]. intros [= <-]. split.
  - intros k v Hk Hne.
    repeat (apply lookup_insert_Some in Hk as [[<- <-]|[? Hk]];
            [first [reflexivity|apply is_text_strs]|]).
    apply lookup_singleton_Some in Hk as [<- _]. done.
  - exists evs. split; [|by eapply parse_events_shape].
    by rewrite !lookup_insert_ne, lookup_singleton_eq.
Qed.

(** ** Scenarios of the tests *)

Lemma parse_event_lines_header hd rows Y M D h m s dd hh mm ss :
  header_ints hd = Some [Y; M; D; h; m; s; dd; hh; mm; ss] →
  valid_datetime (DateTime Y M D h m s) = true →
  parse_event_lines (hd :: rows)
  = Ok {[ "start_time" := PDateTime (DateTime Y M D h m s);
          "timeseries_length" := PTimedelta (timedelta dd hh mm ss);
          "precipitation_per_timestep" :=
            PList (map (λ row, PList (map PStr (split_ws row))) rows) ]}.
Proof. intros Hh Hv. unfold parse_event_lines. by rewrite Hh, Hv. Qed.

Lemma default_event_parses :
  parse_event_lines ["1996 1 1 0 0 0 1 3 0 0"; "0.2"; "0.2"]
  = Ok default_event_mapping.
Proof.
  rewrite (parse_event_lines_header _ _ 1996 1 1 0 0 0 1 3 0 0)
    by (vm_compute; reflexivity).
  reflexivity.
Qed.

Lemma default_bui_text_parses :
  parse_bui_text default_bui_text = Ok default_parsed_mapping.
Proof.
  unfold parse_bui_text.
  assert (Htok : tokenize_lines default_bui_text
                 = [ "1"; "1"; "’Station1’"; "1 10800";
                     "1996 1 1 0 0 0 1 3 0 0"; "0.2"; "0.2" ])
    by (vm_compute; reflexivity).
  rewrite Htok.
  assert (H1 : single_int_token "1" = Some "1") by (vm_compute; reflexivity).
  assert (H4 : two_int_tokens "1 10800" = Some ("1", "10800"))
    by (vm_compute; reflexivity).
  assert (Hb : split_blocks ["1996 1 1 0 0 0 1 3 0 0"; "0.2"; "0.2"]
               = ([], [["1996 1 1 0 0 0 1 3 0 0"; "0.2"; "0.2"]]))
    by (vm_compute; reflexivity).
  assert (H3 : split_ws "’Station1’" = ["’Station1’"])
    by (vm_compute; reflexivity).
  rewrite H1, H4, Hb, H3. unfold parse_events.
  rewrite default_event_parses. reflexivity.
Qed.

Lemma default_file_parses :
  _parse BuiModel_class sample_env sample_disk (PPath "/data/default.bui")
  = Ok default_parsed_mapping.
Proof.
  unfold _parse. cbn [_get_parser BuiModel_class].
  unfold BuiParser_parse, read_text, sample_disk.
  change (absolute (cwd sample_env) "/data/default.bui")
    with "/data/default.bui".
  rewrite lookup_singleton_eq. apply default_bui_text_parses.
Qed.

Lemma init_kwargs_parsed_wins_witness :
  ∃ m, init_kwargs BuiModel_class sample_env sample_disk
         (PPath "/data/default.bui") {[ "default_dataset" := PStr "2" ]}
       = Ok m ∧
       m !! "filepath" = Some (PPath "/data/default.bui") ∧
       m !! "default_dataset" = Some (PStr "1").
Proof.
  destruct (init_kwargs_parsed_wins BuiModel_class sample_env sample_disk
              (PPath "/data/default.bui")
              {[ "default_dataset" := PStr "2" ]}
              default_parsed_mapping
              eq_refl default_file_parses)
    as (m & Hm & Hf & Hd & _).
  exists m. split; [exact Hm|]. split; [exact Hf|].
  apply Hd; [discriminate|reflexivity].
Defined.

(** C1, the claim as stated fails: the keyword [default_dataset="2"] given
    beside the location of a file whose first line is [1] does not reach
    validation; the parsed ["1"] does. *)
Lemma explicit_field_is_overridden :
  ({[ "default_dataset" := PStr "2" ]} : gmap string pval)
    !! "default_dataset" = Some (PStr "2") ∧
  ∃ m, init_kwargs BuiModel_class sample_env sample_disk
         (PPath "/data/default.bui") {[ "default_dataset" := PStr "2" ]}
       = Ok m ∧
       m !! "default_dataset" = Some (PStr "1") ∧
       m !! "default_dataset" ≠ Some (PStr "2").
Proof.
  split; [reflexivity|].
  eexists. split.
  - apply init_kwargs_loaded; [reflexivity|apply default_file_parses].
  - assert (H : (<["filepath" := PPath "/data/default.bui"]>
                   default_parsed_mapping
                 ∪ {[ "default_dataset" := PStr "2" ]})
                !! "default_dataset" = Some (PStr "1")).
    { apply lookup_union_Some_l. by rewrite lookup_insert_ne. }
    split; [exact H|]. rewrite H. discriminate.
Qed.

(** C7.  The block of the header ["2021 12 20 0 0 0 1 0 4 20"] and the two
    rows ["4.2"] parses to the start time 2021-12-20 00:00:00, the duration
    of one day, four minutes and twenty seconds, and the rows
    [[["4.2"], ["4.2"]]] as text. *)
Theorem event_block_scenario :
  BuiEventParser_parse
    ("2021 12 20 0 0 0 1 0 4 20" ++ nl ++ "4.2" ++ nl ++ "4.2")
  = Ok {[ "start_time" := PDateTime (DateTime 2021 12 20 0 0 0);
          "timeseries_length" := PTimedelta (timedelta 1 0 4 20);
          "precipitation_per_timestep" :=
            PList [PList [PStr "4.2"]; PList [PStr "4.2"]] ]} ∧
  timedelta 1 0 4 20 = (1 * 86400 + 4 * 60 + 20)%Z.
Proof.
  split; [|reflexivity]. unfold BuiEventParser_parse.
  assert (Hlines : split_on is_newline
                     ("2021 12 20 0 0 0 1 0 4 20" ++ nl ++ "4.2" ++ nl
                        ++ "4.2")
                   = ["2021 12 20 0 0 0 1 0 4 20"; "4.2"; "4.2"])
    by (vm_compute; reflexivity).
  rewrite Hlines.
  rewrite (parse_event_lines_header _ _ 2021 12 20 0 0 0 1 0 4 20)
    by (vm_compute; reflexivity).
  reflexivity.
Qed.

Lemma parser_keeps_text_except_event_header_witness :
  ∃ evs,
    parse_bui_text default_bui_text = Ok default_parsed_mapping ∧
    default_parsed_mapping !! "precipitation_events"
    = Some (PDict {[ "precipitation_event_list" := PList (map PDict evs) ]}) ∧
    Forall event_shape evs.
Proof.
  destruct (parser_keeps_text_except_event_header _ _
              default_bui_text_parses) as (_ & evs & Hev & Hshape).
  exists evs. split; [exact default_bui_text_parses|].
  split; [exact Hev|exact Hshape].
Defined.

(** C3, the claim as stated fails: in the mapping parsed from the default
    file, the start time of the event is a [datetime] and its length a
    [timedelta], not text. *)
Lemma event_header_is_coerced :
  ∃ m,
    parse_bui_text default_bui_text = Ok m ∧
    m !! "precipitation_events"
    = Some (PDict {[ "precipitation_event_list" :=
                       PList [PDict default_event_mapping] ]}) ∧
    default_event_mapping !! "start_time"
    = Some (PDateTime (DateTime 1996 1 1 0 0 0)) ∧
    is_text (PDateTime (DateTime 1996 1 1 0 0 0)) = false ∧
    default_event_mapping !! "timeseries_length"
    = Some (PTimedelta 97200) ∧
    is_text (PTimedelta 97200) = false.
Proof.
  exists default_parsed_mapping.
  split; [exact default_bui_text_parses|].
  split; [reflexivity|].
  split; [reflexivity|]. split; [reflexivity|]. split; reflexivity.
Qed.

(** * Further properties of the life cycle *)

(** ** Construction *)

(** X1.  Explicit keywords whose names the parser produces make no
    difference: with a location, constructing with such keywords submits
    the same mapping, and gives the same result, as constructing with the
    location alone.  (This is why [BuiModel(filepath=f)] equals the model of
    [get_default_bui_model], which passes the location and every field.) *)
Theorem explicit_fields_of_parsed_names_are_irrelevant {E}
    (pydantic_init : gmap string pval → result E) c e disk filepath kwargs
    data :
  truthy filepath = true →
  _parse c e disk filepath = Ok data →
  (∀ k, is_Some (kwargs !! k) → k = "filepath" ∨ is_Some (data !! k)) →
  init_kwargs c e disk filepath kwargs = init_kwargs c e disk filepath ∅ ∧
  __init__ pydantic_init c e disk filepath kwargs
  = __init__ pydantic_init c e disk filepath ∅.
Proof.
  intros Ht Hp Hk.
  assert (Heq : init_kwargs c e disk filepath kwargs
                = init_kwargs c e disk filepath ∅).
  { rewrite !(init_kwargs_loaded _ _ _ _ _ data) by done. f_equal.
    apply map_eq. intros k. rewrite (right_id_L ∅ (∪)).
    destruct (<["filepath" := filepath]> data !! k) as [v|] eqn:Hd.
    - by apply lookup_union_Some_l.
    - rewrite lookup_union_r by done.
      destruct (kwargs !! k) as [v|] eqn:Hkw; [|done].
      destruct (Hk k) as [->|[w Hw]]; [by rewrite Hkw| |].
      + by rewrite lookup_insert_eq in Hd.
      + destruct (decide (k = "filepath")) as [->|Hne].
        * by rewrite lookup_insert_eq in Hd.
        * rewrite lookup_insert_ne in Hd by done. congruence. }
  split; [exact Heq|]. unfold __init__. by rewrite Heq.
Qed.


(** ** Saving *)

Lemma forallb_false_elem {A} (f : A → bool) l :
  forallb f l = false → ∃ x, x ∈ l ∧ f x = false.
Proof.
  induction l as [|x l IH]; simpl; [done|].
  destruct (f x) eqn:Hx; simpl.
  - intros H. apply IH in H as (y & Hy & Hfy).
    exists y. split; [by right|done].
  - intros _. exists x. split; [by left|done].
Qed.

Lemma reaches_cycle_edge h a b :
  edge h a b → reaches_cycle h b → reaches_cycle h a.
Proof.
  intros He (c & Hreach & Hc). exists c. split; [|done].
  by eapply rtc_l.
Qed.

(** A chain of nested models as long as the store is large runs into a
    reference cycle.  [V] holds the entities already passed; each of them
    reaches [r]. *)
Lemma deep_chain_cycles h :
  closed h →
  ∀ d (V : gset nat) r,
    (∀ v, v ∈ V → tc (edge h) v r) →
    is_Some (h !! r) →
    (size (dom h ∖ V) ≤ d)%nat →
    depth_within h d r = false →
    reaches_cycle h r.
Proof.
  intros Hc. induction d as [|d IH]; intros V r HV Hr Hsize Hd.
  - exists r. split; [apply rtc_refl|]. apply HV.
    apply elem_of_dom in Hr.
    assert (Hempty : dom h ∖ V ≡ ∅).
    { apply size_empty_iff. lia. }
    set_solver.
  - destruct (decide (r ∈ V)) as [Hin|Hnin].
    { exists r. split; [apply rtc_refl|by apply HV]. }
    simpl in Hd. destruct Hr as [o Hr]. rewrite Hr in Hd.
    apply forallb_false_elem in Hd as ([name [v|c]] & Hin & Hd); [done|].
    simpl in Hd.
    assert (He : edge h r c) by by exists o, name.
    apply (reaches_cycle_edge _ _ _ He).
    apply (IH ({[r]} ∪ V)); [| by apply (Hc r c) | | done].
    + intros v Hv. apply elem_of_union in Hv as [Hv|Hv].
      * apply elem_of_singleton in Hv as ->. by apply tc_once.
      * eapply tc_r; [by apply HV|done].
    + assert (Hlt : (size (dom h ∖ ({[r]} ∪ V)) < size (dom h ∖ V))%nat).
      { apply subset_size. apply elem_of_dom_2 in Hr. split.
        - apply difference_mono_l, union_subseteq_r.
        - intros Hsub.
          assert (Hleft : r ∈ dom h ∖ V) by by apply elem_of_difference.
          apply Hsub, elem_of_difference in Hleft as [_ Hnot].
          apply Hnot, elem_of_union_l. by apply elem_of_singleton. }
      lia.
Qed.

(** Without a reference cycle ahead, every chain of nested models ends
    within as many entities as the store holds. *)
Lemma acyclic_depth_within h r fuel :
  closed h → is_Some (h !! r) → ¬ reaches_cycle h r → (size h ≤ fuel)%nat →
  depth_within h fuel r = true.
Proof.
  intros Hc Hr Hno Hsize.
  destruct (depth_within h fuel r) eqn:Hd; [done|].
  destruct Hno.
  apply (deep_chain_cycles h Hc fuel ∅ r); [set_solver|done| |done].
  by rewrite difference_empty_L, size_dom.
Qed.

(** X3.  In a store without dangling references whose serializers render,
    [save] returns a location exactly when every chain of nested models
    from the entity ends within the depth the interpreter allows; otherwise
    it raises [RecursionError].  So every graph without a reference cycle
    ahead of the entity is saved, once the depth allowed is at least the
    number of entities in the store. *)
Theorem save_returns_iff_depth_allows fuel e folder r h :
  closed h → is_Some (h !! r) → serializers_total h →
  (depth_within h fuel r = true →
   ∃ loc, out_result (save fuel e folder r h) = Ok loc) ∧
  (depth_within h fuel r = false →
   out_result (save fuel e folder r h) = Err RecursionError) ∧
  (¬ reaches_cycle h r → (size h ≤ fuel)%nat →
   ∃ loc, out_result (save fuel e folder r h) = Ok loc).
Proof.
  intros Hc Hr Ht.
  assert (Hyes : depth_within h fuel r = true →
                 ∃ loc, out_result (save fuel e folder r h) = Ok loc).
  { intros Hd. pose proof (save_ok fuel e folder r h Ht Hd) as Hok.
    destruct (out_result (save fuel e folder r h)) as [loc|x]; [eauto|done]. }
  split; [exact Hyes|]. split.
  - intros Hd. pose proof (save_err fuel e folder r h Hd) as Hno.
    destruct (out_result (save fuel e folder r h)) as [loc|x] eqn:Hres;
      [done|].
    f_equal. eapply save_error_kind; eauto.
  - intros Hno Hsize. apply Hyes. by apply acyclic_depth_within.
Qed.

Lemma resolved_bind e folder fuel r h o :
  h !! r = Some o →
  resolved e (out_heap (save (S fuel) e folder r h)) r
  = Some (absolute (cwd e)
            (default (joinpath folder (_generate_name (cls o)))
                     (filepath o))).
Proof.
  intros Hr.
  destruct (save_binds_location fuel e folder r h o Hr)
    as (o' & Ho' & _ & _ & Hp).
  unfold resolved. rewrite Ho'. simpl. by rewrite Hp.
Qed.

Lemma save_children_writes_resolved e folder f :
  (∀ c h, heap_step folder h (out_heap (f c h))) →
  (∀ c h w, w ∈ out_writes (f c h) →
            ∃ r', resolved e (out_heap (f c h)) r' = Some w.1) →
  ∀ fs h w, w ∈ out_writes (save_children f fs h) →
    ∃ r', resolved e (out_heap (save_children f fs h)) r' = Some w.1.
Proof.
  intros Hstep Hf. induction fs as [|[name [v|c]] fs IH]; intros h w Hw;
    simpl in *.
  - by apply elem_of_nil in Hw.
  - by apply IH.
  - destruct (out_result (f c h)) as [loc|x] eqn:Hres; simpl in *.
    + apply elem_of_app in Hw as [Hw|Hw].
      * destruct (Hf c h w Hw) as [r' Hr']. exists r'.
        eapply resolved_step; [|exact Hr'].
        apply save_children_step, Hstep.
      * by apply IH.
    + by apply Hf.
Qed.

(** X4.  [save] writes nowhere but at the resolved locations of the models
    of the store: every file of the trace, also of a call that ends in an
    exception, is the file of an entity that is bound to it afterwards. *)
Theorem save_writes_only_model_files fuel e folder :
  ∀ r h w, w ∈ out_writes (save fuel e folder r h) →
    ∃ r', resolved e (out_heap (save fuel e folder r h)) r' = Some w.1.
Proof.
  induction fuel as [|fuel IH]; intros r h w Hw;
    [by apply elem_of_nil in Hw|].
  destruct (h !! r) as [o|] eqn:Hr;
    [|simpl in Hw; rewrite Hr in Hw; by apply elem_of_nil in Hw].
  pose proof (resolved_bind e folder fuel r h o Hr) as Hown.
  rewrite (save_heap _ _ _ _ _ _ Hr) in Hown |- *.
  rewrite (save_unfold _ _ _ _ _ _ Hr) in Hw. cbv zeta in Hw.
  set (p := default _ _) in *.
  pose proof (save_children_writes_resolved e folder (save fuel e folder)
                (save_step fuel e folder) IH (fields o)
                (<[r := set_filepath o p]> h)) as Hch.
  destruct (out_result (save_children _ _ _)) as [locs|x]; [|by apply Hch].
  destruct (_get_serializer _ _ _ _) as [text|]; [|by apply Hch].
  simpl in Hw. apply elem_of_app in Hw as [Hw|Hw]; [by apply Hch|].
  apply list_elem_of_singleton in Hw as ->. by exists r.
Qed.

Lemma is_absolute_absolute cwd0 p :
  is_absolute cwd0 = true → is_absolute (absolute cwd0 p) = true.
Proof.
  intros Hc. unfold absolute.
  destruct (is_absolute p) eqn:Hp; [done|]. unfold joinpath. rewrite Hp.
  destruct (String.eqb_spec cwd0 ".") as [->|_]; [done|].
  destruct (String.eqb_spec cwd0 "/") as [->|_]; [done|].
  destruct cwd0 as [|a cwd0]; [done|]. simpl in Hc.
  rewrite string_app_cons. simpl. exact Hc.
Qed.

(** X5.  With an absolute working directory, the location [save] returns
    is an absolute path, also for a relative target folder or a relative
    bound location. *)
Theorem save_returns_absolute_path fuel e folder r h loc :
  is_absolute (cwd e) = true →
  out_result (save fuel e folder r h) = Ok loc →
  is_absolute loc = true.
Proof.
  intros Hc Hres. destruct fuel as [|fuel]; [done|].
  destruct (h !! r) as [o|] eqn:Hr; [|by simpl in Hres; rewrite Hr in Hres].
  rewrite (save_unfold _ _ _ _ _ _ Hr) in Hres. cbv zeta in Hres.
  destruct (out_result (save_children _ _ _)); [|done].
  destruct (_get_serializer _ _ _ _); [|done].
  simpl in Hres. injection Hres as <-. by apply is_absolute_absolute.
Qed.

Lemma edge_same_fields h h' a b :
  same_fields h h' → edge h a b → edge h' a b.
Proof.
  intros Hs (o & name & Ha & Hin). specialize (Hs a). rewrite Ha in Hs.
  inversion Hs as [? o' Hf Ho Ho'|]; subst.
  exists o', name. split; [done|]. by rewrite Hf.
Qed.

Lemma rtc_edge_same_fields h h' a b :
  same_fields h h' → rtc (edge h) a b → rtc (edge h') a b.
Proof.
  intros Hs. induction 1 as [|a c b He _ IH]; [apply rtc_refl|].
  eapply rtc_l; [by eapply edge_same_fields|exact IH].
Qed.

Lemma is_Some_resolved_step e folder h h' c :
  heap_step folder h h' → is_Some (resolved e h c) →
  is_Some (resolved e h' c).
Proof. intros Hs [loc Hl]. exists loc. by eapply resolved_step. Qed.

Lemma save_children_bind_graph e folder f :
  (∀ c h, heap_step folder h (out_heap (f c h))) →
  (∀ c h, is_ok (out_result (f c h)) = true →
          ∀ x, rtc (edge h) c x → is_Some (resolved e (out_heap (f c h)) x)) →
  ∀ fs h, is_ok (out_result (save_children f fs h)) = true →
    ∀ name c x, (name, Nested c) ∈ fs → rtc (edge h) c x →
      is_Some (resolved e (out_heap (save_children f fs h)) x).
Proof.
  intros Hstep Hf. induction fs as [|[n [v|c']] fs IH];
    intros h Hok name c x Hin Hreach; simpl in *.
  - by apply elem_of_nil in Hin.
  - apply elem_of_cons in Hin as [Hin|Hin]; [done|]. by eapply IH.
  - pose proof (Hstep c' h) as Hs.
    destruct (out_result (f c' h)) as [loc|y] eqn:Hres; [|done].
    simpl in *.
    assert (Hok' : is_ok (out_result (save_children f fs
                                        (out_heap (f c' h)))) = true).
    { by destruct (out_result (save_children f fs _)). }
    apply elem_of_cons in Hin as [Hin|Hin].
    + injection Hin as -> ->.
      eapply is_Some_resolved_step; [by apply save_children_step|].
      apply Hf; [by rewrite Hres|done].
    + eapply (IH _ Hok' name c x Hin).
      eapply rtc_edge_same_fields; [|exact Hreach].
      by eapply heap_step_same_fields.
Qed.

(** X6.  When [save] returns, every model that the entity reaches through
    nested file-backed fields, at any depth, is bound to a location. *)
Theorem save_binds_the_whole_graph fuel e folder :
  ∀ r h, is_ok (out_result (save fuel e folder r h)) = true →
    ∀ x, rtc (edge h) r x →
      is_Some (resolved e (out_heap (save fuel e folder r h)) x).
Proof.
  induction fuel as [|fuel IH]; intros r h Hok x Hreach; [done|].
  destruct (h !! r) as [o|] eqn:Hr; [|by simpl in Hok; rewrite Hr in Hok].
  pose proof (resolved_bind e folder fuel r h o Hr) as Hown.
  rewrite (save_heap _ _ _ _ _ _ Hr) in Hown |- *.
  rewrite (save_unfold _ _ _ _ _ _ Hr) in Hok. cbv zeta in Hok.
  set (p := default _ _) in *.
  set (h1 := <[r := set_filepath o p]> h) in *.
  assert (Hs1 : heap_step folder h h1).
  { eapply heap_step_insert; [exact Hr|apply obj_step_bind]. }
  apply rtc_inv in Hreach as [<-|(c & (o' & name & Ho' & Hin) & Hreach)];
    [by rewrite Hown|].
  rewrite Hr in Ho'. injection Ho' as <-.
  eapply (save_children_bind_graph e folder (save fuel e folder)
            (save_step fuel e folder) IH (fields o) h1); [|exact Hin|].
  - destruct (out_result (save_children _ _ h1)); [done|done].
  - eapply rtc_edge_same_fields; [|exact Hreach].
    by eapply heap_step_same_fields.
Qed.

(** ** Saving into another folder *)

Section elsewhere.
Variables (e1 e2 : env) (folder folder2 : string) (h' : gmap nat obj).
Hypothesis Hcwd : cwd e2 = cwd e1.
Hypothesis Hrenders : still_renders h' e1 e2.

Lemma save_children_elsewhere fuel
    (IH : ∀ r h, is_ok (out_result (save fuel e1 folder r h)) = true →
            extends (out_heap (save fuel e1 folder r h)) h' →
            repeats e1 e2 h' (save fuel e1 folder r h)
                    (save fuel e2 folder2 r h')) :
  ∀ fs h,
    is_ok (out_result (save_children (save fuel e1 folder) fs h)) = true →
    extends (out_heap (save_children (save fuel e1 folder) fs h)) h' →
    repeats e1 e2 h' (save_children (save fuel e1 folder) fs h)
            (save_children (save fuel e2 folder2) fs h').
Proof.
  induction fs as [|[name [v|c]] fs IHfs]; intros h Hok Hx; simpl in *.
  - repeat split; auto.
  - by apply IHfs.
  - pose proof (save_children_step folder (save fuel e1 folder)
                  (save_step fuel e1 folder) fs
                  (out_heap (save fuel e1 folder c h))) as Hs.
    destruct (out_result (save fuel e1 folder c h)) as [loc|x] eqn:Hres;
      [|done].
    simpl in Hok, Hx.
    destruct (IH c h) as (Hr2 & Hh2 & Hw2 & Hsame).
    { by rewrite Hres. }
    { eapply extends_trans; [|exact Hx]. by eapply heap_step_extends. }
    rewrite Hres in Hr2. rewrite Hr2, Hh2. simpl.
    destruct (IHfs (out_heap (save fuel e1 folder c h)))
      as (Hr3 & Hh3 & Hw3 & Hsame3).
    { by destruct (out_result (save_children _ _ _)). }
    { exact Hx. }
    unfold repeats. simpl.
    split; [by rewrite Hr3|]. split; [exact Hh3|].
    split; [by rewrite !map_app, Hw2, Hw3|].
    intros Hsr. by rewrite Hsame, Hsame3.
Qed.

Lemma save_elsewhere fuel :
  ∀ r h, is_ok (out_result (save fuel e1 folder r h)) = true →
    extends (out_heap (save fuel e1 folder r h)) h' →
    repeats e1 e2 h' (save fuel e1 folder r h) (save fuel e2 folder2 r h').
Proof.
  induction fuel as [|fuel IH]; intros r h Hok Hx; [done|].
  destruct (h !! r) as [o|] eqn:Hr; [|by simpl in Hok; rewrite Hr in Hok].
  rewrite (save_heap _ _ _ _ _ _ Hr) in Hx.
  rewrite (save_unfold _ _ _ _ _ _ Hr) in Hok |- *. cbv zeta in Hok |- *.
  set (p := default _ _) in *.
  set (h1 := <[r := set_filepath o p]> h) in *.
  pose proof (save_children_step folder (save fuel e1 folder)
                (save_step fuel e1 folder) (fields o) h1 r) as Hs.
  unfold h1 in Hs at 1. rewrite lookup_insert_eq in Hs.
  inversion Hs as [? oH (HcH & HfH & HpH) Ho HoH|]; subst.
  pose proof (Hx r) as Hxr. rewrite <- HoH in Hxr.
  inversion Hxr as [? o' (Hc' & Hf' & Hp') Ho2 Hr'|]; subst.
  symmetry in Hr'.
  assert (Hbound : filepath o' = Some p).
  { apply Hp'. destruct HpH as [->|[Hn _]]; done. }
  simpl in HcH, HfH.
  assert (Hcls : cls o' = cls o) by congruence.
  assert (Hfields : fields o' = fields o) by congruence.
  rewrite (save_unfold _ _ _ _ _ _ Hr'). cbv zeta.
  rewrite Hbound. simpl default.
  rewrite (set_filepath_bound _ _ Hbound), (insert_id _ _ _ Hr').
  rewrite Hcls, Hfields.
  destruct (save_children_elsewhere fuel IH (fields o) h1)
    as (Hr2 & Hh2 & Hw2 & Hsame).
  { by destruct (out_result (save_children _ _ h1)). }
  { exact Hx. }
  destruct (out_result (save_children (save fuel e1 folder) _ h1))
    as [locs|x] eqn:Hres1; [|done].
  rewrite Hr2.
  destruct (_get_serializer (cls o) e1 p (save_data (fields o) locs))
    as [text1|] eqn:Htext1; [|done].
  destruct (Hrenders r o' p (save_data (fields o) locs) Hr')
    as [text2 Htext2]; [by rewrite Hcls, Htext1|].
  rewrite Hcls in Htext2. rewrite Htext2.
  unfold repeats. simpl. split; [by rewrite Hcwd|]. split; [exact Hh2|].
  split; [by rewrite !map_app, Hw2, Hcwd|].
  intros Hsr. rewrite (Hsame Hsr), Hcwd. do 3 f_equal.
  specialize (Hsr r o' p (save_data (fields o) locs) Hr').
  rewrite Hcls in Hsr. congruence.
Qed.
End elsewhere.

(** X7.  Once [save] has returned, the target folder of a later call is
    ignored: when the working directory is the same and every serializer
    that rendered in the first call renders again, saving the same entity
    into any other folder returns the same location, changes nothing in the
    store and writes to the same files in the same order. *)
Theorem save_into_another_folder_stays fuel e1 e2 folder folder2 r h loc :
  cwd e2 = cwd e1 → still_renders h e1 e2 →
  out_result (save fuel e1 folder r h) = Ok loc →
  out_result (save fuel e2 folder2 r (out_heap (save fuel e1 folder r h)))
  = Ok loc ∧
  out_heap (save fuel e2 folder2 r (out_heap (save fuel e1 folder r h)))
  = out_heap (save fuel e1 folder r h) ∧
  map fst (out_writes
             (save fuel e2 folder2 r (out_heap (save fuel e1 folder r h))))
  = map fst (out_writes (save fuel e1 folder r h)).
Proof.
  intros Hcwd Ht Hres.
  pose proof (save_step fuel e1 folder r h) as Hs.
  destruct (save_elsewhere e1 e2 folder folder2
              (out_heap (save fuel e1 folder r h)) Hcwd
              (still_renders_extends _ _ _ _
                 (heap_step_extends _ _ _ Hs) Ht) fuel r h
              ltac:(by rewrite Hres) (extends_refl _))
    as (Hr2 & Hh2 & Hw2 & _).
  split; [congruence|]. split; [exact Hh2|exact Hw2].
Qed.

(** ** What the serializer is given *)

Lemma dict_lookup_plain exclude fs name v :
  NoDup (map fst fs) → (name, Plain v) ∈ fs → name ∉ exclude →
  dict exclude fs !! name
  = match v with PNone => None | _ => Some (to_dict_value v) end.
Proof.
  intros Hnd Hin Hex.
  assert (Habsent : ∀ fs', name ∉ map fst fs' →
            dict exclude fs' !! name = None).
  { induction fs' as [|[n [w|c]] fs' IH]; simpl; intros Hn; [done| |].
    - apply not_elem_of_cons in Hn as [Hne Hn].
      case_bool_decide; [by apply IH|].
      destruct w; try (by apply IH);
        (rewrite lookup_insert_ne by done; by apply IH).
    - apply not_elem_of_cons in Hn as [_ Hn]. by apply IH. }
  induction fs as [|[n [w|c]] fs IH]; simpl in *.
  - by apply elem_of_nil in Hin.
  - apply NoDup_cons in Hnd as [Hn Hnd].
    apply elem_of_cons in Hin as [Hin|Hin].
    + injection Hin as <- <-. rewrite bool_decide_eq_false_2 by done.
      destruct v; try (by rewrite lookup_insert_eq). by apply Habsent.
    + assert (Hne : n ≠ name).
      { intros ->. apply Hn. apply list_elem_of_fmap.
        by exists (name, Plain v). }
      case_bool_decide; [by apply IH|].
      destruct w; try (by apply IH);
        (rewrite lookup_insert_ne by done; by apply IH).
  - apply NoDup_cons in Hnd as [Hn Hnd].
    apply elem_of_cons in Hin as [Hin|Hin]; [done|]. by apply IH.
Qed.

Lemma filemodel_dict_absent locs name :
  name ∉ map fst locs → filemodel_dict locs !! name = None.
Proof.
  induction locs as [|nl locs IH] using rev_ind; intros Hn; [done|].
  rewrite filemodel_dict_snoc. rewrite map_app in Hn.
  apply not_elem_of_app in Hn as [Hn Hnl].
  rewrite lookup_insert_ne; [by apply IH|].
  intros Heq. apply Hnl. simpl. rewrite Heq. by left.
Qed.

Lemma plain_name_not_nested fs name v :
  NoDup (map fst fs) → (name, Plain v) ∈ fs →
  (name ∉ map fst (nested_fields fs)) ∧ (name ∉ nested_names fs).
Proof.
  induction fs as [|[n [w|c]] fs IH]; simpl; intros Hnd Hin.
  - by apply elem_of_nil in Hin.
  - apply NoDup_cons in Hnd as [Hn Hnd].
    apply elem_of_cons in Hin as [Hin|Hin]; [|by apply IH].
    injection Hin as <- <-. split.
    + intros Hx. apply Hn. apply list_elem_of_fmap in Hx as ([n' c'] & -> & Hx).
      by eapply nested_fields_names.
    + intros Hx. apply Hn. clear -Hx.
      induction fs as [|[n' [w'|c']] fs IH]; simpl in *.
      * by apply elem_of_nil in Hx.
      * right. by apply IH.
      * apply elem_of_cons in Hx as [->|Hx]; [by left|right; by apply IH].
  - apply NoDup_cons in Hnd as [Hn Hnd].
    apply elem_of_cons in Hin as [Hin|Hin]; [done|].
    destruct (IH Hnd Hin) as [H1 H2].
    assert (Hne : name ≠ n).
    { intros ->. apply Hn. apply list_elem_of_fmap.
      by exists (n, Plain v). }
    split; by apply not_elem_of_cons.
Qed.

Lemma nested_fields_elem_inv fs name c :
  (name, c) ∈ nested_fields fs → (name, Nested c) ∈ fs.
Proof.
  induction fs as [|[n [v|c']] fs IH]; simpl; intros Hin.
  - by apply elem_of_nil in Hin.
  - right. by apply IH.
  - apply elem_of_cons in Hin as [Hin|Hin].
    + injection Hin as -> ->. by left.
    + right. by apply IH.
Qed.

(** X8.  When [save] returns, the file it writes last, at the returned
    location, is the text of the serializer for a mapping in which every
    field that is not a nested model and not [None] has its flattened
    value, a field that is [None] has no entry, and, unless a nested model
    is held under that very name, there is no entry [filepath]. *)
Theorem save_serializes_plain_fields fuel e folder r h o loc :
  h !! r = Some o → NoDup (map fst (fields o)) →
  out_result (save (S fuel) e folder r h) = Ok loc →
  ∃ data text p,
    _get_serializer (cls o) e p data = Some text ∧
    last (out_writes (save (S fuel) e folder r h)) = Some (loc, text) ∧
    (∀ name v, (name, Plain v) ∈ fields o → name ≠ "filepath" →
       data !! name
       = match v with PNone => None | _ => Some (to_dict_value v) end) ∧
    ((∀ c, ("filepath", Nested c) ∉ fields o) → data !! "filepath" = None).
Proof.
  intros Hr Hnd Hres.
  rewrite (save_unfold _ _ _ _ _ _ Hr) in Hres |- *. cbv zeta in Hres |- *.
  set (p := default _ _) in *.
  set (h1 := <[r := set_filepath o p]> h) in *.
  destruct (out_result (save_children (save fuel e folder) (fields o) h1))
    as [locs|x] eqn:Hch; [|done].
  destruct (_get_serializer (cls o) e p (save_data (fields o) locs))
    as [text|] eqn:Htext; [|done].
  simpl in Hres. injection Hres as <-. simpl.
  pose proof (locs_names _ _ _
                (save_children_locs fuel e folder (fields o) h1 locs Hch))
    as Hnames.
  exists (save_data (fields o) locs), text, p.
  split; [done|]. split; [by rewrite last_snoc|]. split.
  - intros name v Hin Hne.
    destruct (plain_name_not_nested _ _ _ Hnd Hin) as [Hn1 Hn2].
    unfold save_data, dict_update.
    rewrite lookup_union_r by (apply filemodel_dict_absent; by rewrite Hnames).
    apply dict_lookup_plain; [done|done|].
    by apply not_elem_of_cons.
  - intros Hno. unfold save_data, dict_update.
    rewrite lookup_union_r; [apply dict_excluded; by left|].
    apply filemodel_dict_absent. rewrite Hnames.
    intros ([n c] & Heq & Hin)%list_elem_of_fmap. simpl in Heq. subst n.
    by apply nested_fields_elem_inv, Hno in Hin.
Qed.

(** ** The properties above on the sample data *)

Lemma family_heap_lookup r o :
  family_heap !! r = Some o →
  (r = 0 ∨ r = 1 ∨ r = 2) ∧ ∃ name, cls o = plain_class name.
Proof.
  unfold family_heap. intros Hr.
  apply lookup_insert_Some in Hr as [[<- <-]|[_ Hr]]; [eauto|].
  apply lookup_insert_Some in Hr as [[<- <-]|[_ Hr]]; [eauto|].
  apply lookup_singleton_Some in Hr as [<- <-]. eauto.
Qed.

Lemma family_heap_total : serializers_total family_heap.
Proof.
  intros r o e p data Hr.
  destruct (family_heap_lookup r o Hr) as (_ & name & ->). by eexists.
Qed.

Lemma family_heap_closed : closed family_heap.
Proof.
  intros a b (o & name & Ha & Hin). unfold family_heap in Ha.
  apply lookup_insert_Some in Ha as [[<- <-]|[_ Ha]].
  { simpl in Hin. repeat (apply elem_of_cons in Hin as [Hin|Hin];
                          [try done; injection Hin as _ ->; by eexists|]).
    by apply elem_of_nil in Hin. }
  apply lookup_insert_Some in Ha as [[<- <-]|[_ Ha]].
  { simpl in Hin. repeat (apply elem_of_cons in Hin as [Hin|Hin]; [done|]).
    by apply elem_of_nil in Hin. }
  apply lookup_singleton_Some in Ha as [<- <-].
  by apply elem_of_nil in Hin.
Qed.

Lemma family_names_NoDup :
  NoDup (map fst [ ("title", Plain (PStr "rain"));
                   ("left", Nested 1); ("right", Nested 2) ]).
Proof. by apply (bool_decide_unpack _); vm_compute. Qed.

Lemma explicit_fields_of_parsed_names_are_irrelevant_witness :
  init_kwargs BuiModel_class sample_env sample_disk
    (PPath "/data/default.bui") {[ "default_dataset" := PStr "2" ]}
  = init_kwargs BuiModel_class sample_env sample_disk
      (PPath "/data/default.bui") ∅.
Proof.
  refine (proj1 (explicit_fields_of_parsed_names_are_irrelevant
                   (E := gmap string pval) Ok
                   BuiModel_class sample_env sample_disk
                   (PPath "/data/default.bui")
                   {[ "default_dataset" := PStr "2" ]}
                   default_parsed_mapping
                   eq_refl default_file_parses _)).
  intros k [v Hk]. apply lookup_singleton_Some in Hk as [<- _].
  right. by eexists.
Defined.


Lemma family_heap_acyclic : ¬ reaches_cycle family_heap 0.
Proof.
  intros Hcyc.
  pose proof (reaches_cycle_unbounded _ _ Hcyc 3) as Hd.
  vm_compute in Hd. discriminate.
Qed.

Lemma save_returns_iff_depth_allows_witness :
  (∃ loc, out_result (save 3 sample_env "/out" 0 family_heap) = Ok loc) ∧
  (∃ loc, out_result (save 5 sample_env "/out" 0 family_heap) = Ok loc).
Proof.
  assert (Hr : is_Some (family_heap !! 0)) by by eexists.
  split.
  - exact (proj1 (save_returns_iff_depth_allows 3 sample_env "/out" 0
                    family_heap family_heap_closed Hr family_heap_total)
                 eq_refl).
  - refine (proj2 (proj2 (save_returns_iff_depth_allows 5 sample_env "/out"
                            0 family_heap family_heap_closed Hr
                            family_heap_total))
                  family_heap_acyclic _).
    vm_compute. lia.
Defined.

Lemma save_writes_only_model_files_witness :
  ∃ r', resolved sample_env
          (out_heap (save 3 sample_env "/out" 0 family_heap)) r'
        = Some "/out/left.test".
Proof.
  refine (save_writes_only_model_files 3 sample_env "/out" 0 family_heap
            ("/out/left.test", "depth=3") _).
  assert (Hw : out_writes (save 3 sample_env "/out" 0 family_heap)
               = [ ("/out/left.test", "depth=3");
                   ("/out/right.test", "");
                   ("/out/root.test",
                    "right=/out/right.test" ++ nl ++ "left=/out/left.test"
                      ++ nl ++ "title=rain") ])
    by (vm_compute; reflexivity).
  rewrite Hw. by left.
Defined.

Lemma save_returns_absolute_path_witness :
  out_result (save 3 sample_env "out" 0 family_heap)
  = Ok "/work/out/root.test" ∧
  is_absolute "/work/out/root.test" = true.
Proof.
  assert (Hres : out_result (save 3 sample_env "out" 0 family_heap)
                 = Ok "/work/out/root.test") by (vm_compute; reflexivity).
  split; [exact Hres|].
  exact (save_returns_absolute_path 3 sample_env "out" 0 family_heap
           "/work/out/root.test" eq_refl Hres).
Defined.

Lemma save_binds_the_whole_graph_witness :
  is_Some (resolved sample_env
             (out_heap (save 3 sample_env "/out" 0 family_heap)) 2).
Proof.
  refine (save_binds_the_whole_graph 3 sample_env "/out" 0 family_heap
            _ 2 _).
  - vm_compute. reflexivity.
  - apply rtc_once. eexists _, "right". split; [reflexivity|]. set_solver.
Defined.

Lemma save_into_another_folder_stays_witness :
  out_result (save 2 later_env "/elsewhere" 0
                (out_heap (save 2 sample_env "/out" 0 bui_heap)))
  = Ok "/out/bui_file.bui".
Proof.
  refine (proj1 (save_into_another_folder_stays 2 sample_env later_env
                   "/out" "/elsewhere" 0 bui_heap "/out/bui_file.bui"
                   eq_refl (bui_heap_still_renders _ _) _)).
  vm_compute. reflexivity.
Defined.

Lemma save_serializes_plain_fields_witness :
  ∃ data text p,
    _get_serializer (plain_class "root") sample_env p data = Some text ∧
    last (out_writes (save 3 sample_env "/out" 0 family_heap))
    = Some ("/out/root.test", text) ∧
    data !! "title" = Some (PStr "rain").
Proof.
  destruct (save_serializes_plain_fields 2 sample_env "/out" 0 family_heap
              _ "/out/root.test" eq_refl family_names_NoDup
              ltac:(vm_compute; reflexivity))
    as (data & text & p & Hser & Hlast & Hplain & _).
  exists data, text, p. split; [exact Hser|]. split; [exact Hlast|].
  apply (Hplain "title" (PStr "rain")); [by left|discriminate].
Defined.
